(** * The item search index of [app/item_search.py]

    A shallow embedding of the module's three globals ([database],
    [word_to_ids], [_type_cback]) and of its two entry points ([init] with
    its inner [on_type], and [rebuild_database]), followed by the properties
    of the tag search index. *)

From Stdlib Require Import ZArith String Ascii List.
From stdpp Require Import base gmap sets list strings.

Local Open Scope Z_scope.

(** ** Python built-ins the module relies on *)

Module Py.

(** Python exceptions, as far as the module can meet them.  A catalog
    object raises whatever it likes ([CatalogError]); calling [None]
    raises [TypeError]; the refresh callback may raise as well. *)
Inductive exn : Type :=
| TypeError
| CatalogError (msg : string)
| CallbackError (msg : string).

(** The outcome of running a statement: normal completion or a raised
    exception. *)
Inductive outcome (A : Type) : Type :=
| Ok (a : A)
| Raise (e : exn).
Arguments Ok {A} a.
Arguments Raise {A} e.

(** [str.isspace] on one character.  Characters are code points below
    256; these are the ones Python counts as whitespace there. *)
Definition isspace (c : ascii) : bool :=
  let n := nat_of_ascii c in
  ((9 <=? n) && (n <=? 13) || (28 <=? n) && (n <=? 32)
   || (n =? 133) || (n =? 160))%nat.

(** [flush cur] closes the word being read, if there is one. *)
Definition flush (cur : string) : list string :=
  match cur with
  | EmptyString => []
  | _ => [cur]
  end.

(** [cur] is the word read so far, [s] the rest of the text. *)
Fixpoint split_from (cur : string) (s : string) : list string :=
  match s with
  | EmptyString => flush cur
  | String c s' =>
      if isspace c then flush cur ++ split_from EmptyString s'
      else split_from (cur +:+ String c EmptyString) s'
  end.

(** [str.split()] without arguments: the maximal runs of non-whitespace
    characters, in order; never an empty word. *)
Definition split (s : string) : list string := split_from EmptyString s.

(** [c] is an upper-case ASCII letter. *)
Definition is_upper (c : ascii) : bool :=
  let n := nat_of_ascii c in ((65 <=? n) && (n <=? 90))%nat.

Definition lower_char (c : ascii) : ascii :=
  if is_upper c then ascii_of_nat (nat_of_ascii c + 32) else c.

(** [str.casefold] restricted to ASCII text, where it lowers the letters
    A..Z and changes nothing else.  The general theorems below take the
    folding function as a parameter; this instance serves the concrete
    catalogs, which are all ASCII. *)
Fixpoint casefold_ascii (s : string) : string :=
  match s with
  | EmptyString => EmptyString
  | String c s' => String (lower_char c) (casefold_ascii s')
  end.

End Py.
Export Py.

(** ** The prefix dictionary ([marisa_trie.Trie])

    The library is not part of the repository; only its contract matters
    here: a static set of keys, enumerable as a whole ([keys]) and by
    prefix ([iterkeys]).  The order of enumeration is the library's own. *)

Module Trie.

Record t : Type := Build { key_set : gset string }.

(** [Trie()] *)
Definition empty : t := Build ∅.

(** [Trie(keys)] *)
Definition Trie (ks : list string) : t := Build (list_to_set ks).

(** [trie.keys()] *)
Definition keys (d : t) : list string := elements (key_set d).

(** [trie.iterkeys(prefix)]: every key that starts with [prefix]. *)
Definition iterkeys (d : t) (prefix : string) : list string :=
  List.filter (String.prefix prefix) (keys d).

End Trie.

(** ** The catalog ([UI.item_list])

    [app.UI] and the item class are outside the module; the rebuild only
    reads an item's [id], its [visual_subtypes] and the tags that
    [get_tags] yields for a subtype. *)

(** An entry identifier: the pair [(item.id, subtype_ind)]. *)
Definition EntryId : Type := string * Z.

(** What iterating [item.get_tags(subtype_ind)] does: it yields some tags
    and then either stops or raises.  This is where a catalog walk is
    taken to fail; reading [id] and [visual_subtypes] is plain attribute
    access. *)
Record tag_iter : Type := TagIter {
  yielded : list string;
  failure : option exn
}.

Definition tags (l : list string) : tag_iter := TagIter l None.

Record Item : Type := MkItem {
  id : string;
  visual_subtypes : list Z;
  get_tags : Z → tag_iter
}.

(** ** Module state *)

(** The closure [on_type] that [init] builds; of what it captures, the
    caller's [refresh_cback] is the part that varies.  The callback receives
    [None] or a set of identifiers and returns or raises. *)
Record on_type_closure : Type := Closure {
  refresh_cback : option (gset EntryId) → outcome unit
}.

(** The two widgets [init] creates: the text of [search_var] and the
    selection of [searchbar] ([sel.first], [sel.last]) when there is one. *)
Record Widgets : Type := MkWidgets {
  search_var : string;
  selection : option (Z * Z)
}.

(** The module globals, the widgets, and the record of every argument the
    refresh callback has been called with (oldest first). *)
Record State : Type := MkState {
  database : Trie.t;
  word_to_ids : gmap string (gset EntryId);
  _type_cback : option on_type_closure;
  widgets : Widgets;
  calls : list (option (gset EntryId))
}.

(** The state when the module has just been imported. *)
Definition initial : State :=
  MkState Trie.empty ∅ None (MkWidgets "" None) [].

Definition set_database (d : Trie.t) (s : State) : State :=
  MkState d (word_to_ids s) (_type_cback s) (widgets s) (calls s).
Definition set_word_to_ids (m : gmap string (gset EntryId)) (s : State) : State :=
  MkState (database s) m (_type_cback s) (widgets s) (calls s).
Definition set_type_cback (c : option on_type_closure) (s : State) : State :=
  MkState (database s) (word_to_ids s) c (widgets s) (calls s).
Definition set_widgets (w : Widgets) (s : State) : State :=
  MkState (database s) (word_to_ids s) (_type_cback s) w (calls s).
Definition set_selection (sel : option (Z * Z)) (s : State) : State :=
  set_widgets (MkWidgets (search_var (widgets s)) sel) s.
Definition log_call (a : option (gset EntryId)) (s : State) : State :=
  MkState (database s) (word_to_ids s) (_type_cback s) (widgets s) (calls s ++ [a]).

(** ** Statements: state passing with exceptions

    A raised exception keeps every mutation made before it. *)

Definition M (A : Type) : Type := State → outcome A * State.

Definition ret {A} (a : A) : M A := λ s, (Ok a, s).
Definition raise {A} (e : exn) : M A := λ s, (Raise e, s).
Definition bind {A B} (m : M A) (k : A → M B) : M B :=
  λ s, match m s with
       | (Ok a, s') => k a s'
       | (Raise e, s') => (Raise e, s')
       end.
Definition get : M State := λ s, (Ok s, s).
Definition modify (f : State → State) : M unit := λ s, (Ok tt, f s).

Declare Scope py_scope.
Delimit Scope py_scope with py.
Notation "x <- m ;; k" := (bind m (λ x, k))
  (at level 100, m at next level, right associativity) : py_scope.
Notation "m ;; k" := (bind m (λ _, k))
  (at level 100, right associativity) : py_scope.
Local Open Scope py_scope.

(** [for x in l: body x] *)
Fixpoint for_each {A} (l : list A) (body : A → M unit) : M unit :=
  match l with
  | [] => ret tt
  | x :: l' => body x ;; for_each l' body
  end.

(** A [for] loop that updates a local variable [acc]. *)
Fixpoint for_fold {A B} (l : list A) (acc : B) (body : B → A → M B) : M B :=
  match l with
  | [] => ret acc
  | x :: l' => acc' <- body acc x ;; for_fold l' acc' body
  end.

(** [for tag in it: body tag] over a tag iterator. *)
Definition for_tags (it : tag_iter) (body : string → M unit) : M unit :=
  for_each (yielded it) body ;;
  match failure it with
  | Some e => raise e
  | None => ret tt
  end.

(** [word_to_ids[k]] on the [defaultdict(set)]: a missing key is first
    inserted with an empty set. *)
Definition word_to_ids_getitem (k : string) : M (gset EntryId) :=
  s <- get ;;
  match word_to_ids s !! k with
  | Some ids => ret ids
  | None => modify (set_word_to_ids (<[k := ∅]> (word_to_ids s))) ;; ret ∅
  end.

(** [word_to_ids[k].add(x)]: the set stored under [k] is updated in place. *)
Definition word_to_ids_add (k : string) (x : EntryId) : M unit :=
  ids <- word_to_ids_getitem k ;;
  modify (λ s, set_word_to_ids (<[k := ids ∪ {[x]}]> (word_to_ids s)) s).

(** [word_to_ids.keys()] *)
Definition dict_keys (m : gmap string (gset EntryId)) : list string :=
  (map_to_list m).*1.

(** ** The module's functions *)

(** [refresh_cback(arg)] as [on_type] calls it.  The call is recorded; the
    source notes that calling the callback drops the search bar's
    selection; the callback then returns or raises. *)
Definition call_refresh (c : on_type_closure) (arg : option (gset EntryId)) : M unit :=
  modify (log_call arg) ;;
  modify (set_selection None) ;;
  match refresh_cback c arg with
  | Ok _ => ret tt
  | Raise e => raise e
  end.

(** The two nested loops of [on_type] that fill [found]. *)
Definition find_ids (words : list string) : M (gset EntryId) :=
  for_fold words ∅ (λ found word,
    s <- get ;;
    for_fold (Trie.iterkeys (database s) word) found (λ found name,
      ids <- word_to_ids_getitem name ;;
      ret (found ∪ ids))).

(** [on_type], the closure body. *)
Definition on_type (c : on_type_closure) : M unit :=
  s <- get ;;
  let text := search_var (widgets s) in
  let words := split text in
  match words with
  | [] => call_refresh c None
  | _ =>
      found <- find_ids words ;;
      (* Calling the callback deselects us, so save and restore. *)
      s <- get ;;
      let selected := selection (widgets s) in
      call_refresh c (Some found) ;;
      match selected with
      | Some (start, end_) => modify (set_selection (Some (start, end_)))
      | None => ret tt
      end
  end.

(** [init(frm, refresh_cback)]: fresh widgets, and [_type_cback = on_type]. *)
Definition init (cb : option (gset EntryId) → outcome unit) : M unit :=
  modify (set_widgets (MkWidgets "" None)) ;;
  modify (set_type_cback (Some (Closure cb))).

(** [_type_cback()]: calling [None] is a [TypeError]. *)
Definition call_type_cback : M unit :=
  s <- get ;;
  match _type_cback s with
  | Some c => on_type c
  | None => raise TypeError
  end.

(** The user edits the search bar: [search_var] is written and its write
    trace runs [on_type].  Before [init] there is no search bar. *)
Definition type_text (text : string) : M unit :=
  s <- get ;;
  match _type_cback s with
  | Some c =>
      modify (set_widgets (MkWidgets text (selection (widgets s)))) ;;
      on_type c
  | None => ret tt
  end.

Section Rebuild.

(** [str.casefold]. *)
Variable casefold : string → string.

(** The four nested loops of [rebuild_database]. *)
Definition populate (item_list : list Item) : M unit :=
  for_each item_list (λ item,
    for_each (visual_subtypes item) (λ subtype_ind,
      for_tags (get_tags item subtype_ind) (λ tag,
        for_each (split tag) (λ word,
          word_to_ids_add (casefold word) (id item, subtype_ind))))).

(** [rebuild_database()], with [UI.item_list.values()] as [item_list]. *)
Definition rebuild_database (item_list : list Item) : M unit :=
  (* Clear and reset. *)
  modify (set_word_to_ids ∅) ;;
  populate item_list ;;
  modify (λ s, set_database (Trie.Trie (dict_keys (word_to_ids s))) s) ;;
  call_type_cback.

End Rebuild.

(** ** Concrete catalogs *)

Definition quiet : option (gset EntryId) → outcome unit := λ _, Ok tt.

(** Entries A "red door", B "blue door", C "red wall", one variant each. *)
Definition catalog_abc : list Item :=
  [ MkItem "A" [0] (λ _, tags ["red door"]);
    MkItem "B" [0] (λ _, tags ["blue door"]);
    MkItem "C" [0] (λ _, tags ["red wall"]) ].

(** The state after [init], a rebuild from [items], and typing [text]. *)
Definition session (items : list Item) (text : string) : outcome unit * State :=
  (init quiet ;; rebuild_database casefold_ascii items ;; type_text text) initial.

(** ** What [on_type] computes *)

(** The spec's [entries_for]: the set under [name], empty when absent. *)
Definition entries_for (m : gmap string (gset EntryId)) (name : string) : gset EntryId :=
  default ∅ (m !! name).

(** What reading [word_to_ids[name]] for each of [names] leaves in the
    dictionary: missing names appear, with an empty set. *)
Definition touch (m : gmap string (gset EntryId)) (names : list string)
  : gmap string (gset EntryId) :=
  foldl (λ m k, match m !! k with Some _ => m | None => <[k := ∅]> m end) m names.

(** The identifiers collected for one query word, and for all of them. *)
Definition matches (d : Trie.t) (m : gmap string (gset EntryId)) (word : string)
  : gset EntryId :=
  ⋃ (entries_for m <$> Trie.iterkeys d word).

Definition found_for (d : Trie.t) (m : gmap string (gset EntryId)) (words : list string)
  : gset EntryId :=
  ⋃ (matches d m <$> words).

(** The argument [on_type] hands to the refresh callback. *)
Definition evaluate (d : Trie.t) (m : gmap string (gset EntryId)) (text : string)
  : option (gset EntryId) :=
  match split text with
  | [] => None
  | words => Some (found_for d m words)
  end.

(** Every character of [s] is whitespace (so also: [s] is empty). *)
Fixpoint all_space (s : string) : bool :=
  match s with
  | EmptyString => true
  | String c s' => isspace c && all_space s'
  end.

(** ** What [rebuild_database] records *)

(** The dictionary after [word_to_ids[w].add(x)]. *)
Definition add_pair (m : gmap string (gset EntryId)) (p : string * EntryId)
  : gmap string (gset EntryId) :=
  <[p.1 := entries_for m p.1 ∪ {[p.2]}]> m.

Definition record_all (m : gmap string (gset EntryId)) (ps : list (string * EntryId))
  : gmap string (gset EntryId) :=
  foldl add_pair m ps.

Definition outcome_of (r : option exn) : outcome unit :=
  match r with
  | None => Ok tt
  | Some e => Raise e
  end.

(** [m] adds the pairs [ps] to the dictionary, touches nothing else, and
    ends as [r] says. *)
Definition emits (m : M unit) (ps : list (string * EntryId)) (r : option exn) : Prop :=
  ∀ s, m s = (outcome_of r, set_word_to_ids (record_all (word_to_ids s) ps) s).

Section Scan.

Variable casefold : string → string.

(** The (word, identifier) pairs one tag gives rise to. *)
Definition tag_pairs (x : EntryId) (tag : string) : list (string * EntryId) :=
  (λ word, (casefold word, x)) <$> split tag.

(** The pairs recorded while walking the subtypes [vs] of [item], in
    order, and the exception that stopped the walk, if any. *)
Fixpoint scan_subtypes (item : Item) (vs : list Z)
  : list (string * EntryId) * option exn :=
  match vs with
  | [] => ([], None)
  | v :: vs' =>
      let ps := yielded (get_tags item v) ≫= tag_pairs (id item, v) in
      match failure (get_tags item v) with
      | Some e => (ps, Some e)
      | None => let r := scan_subtypes item vs' in (ps ++ r.1, r.2)
      end
  end.

(** The same for a whole catalog. *)
Fixpoint scan (items : list Item) : list (string * EntryId) * option exn :=
  match items with
  | [] => ([], None)
  | item :: rest =>
      let r := scan_subtypes item (visual_subtypes item) in
      match r.2 with
      | Some e => (r.1, Some e)
      | None => let r' := scan rest in (r.1 ++ r'.1, r'.2)
      end
  end.

(** The dictionary and the trie a rebuild from [items] leaves. *)
Definition built_map (items : list Item) : gmap string (gset EntryId) :=
  record_all ∅ (scan items).1.

Definition built_trie (items : list Item) : Trie.t :=
  Trie.Trie (dict_keys (built_map items)).

(** Variant [x] of the catalog carries a tag one of whose words folds
    to [w]. *)
Definition tagged (items : list Item) (w : string) (x : EntryId) : Prop :=
  ∃ item tag word,
    item ∈ items ∧ x = (id item, x.2) ∧ x.2 ∈ visual_subtypes item
    ∧ tag ∈ yielded (get_tags item x.2) ∧ word ∈ split tag ∧ w = casefold word.

End Scan.

(** No tag iterator of the catalog raises. *)
Definition catalog_ok (items : list Item) : bool :=
  forallb (λ item,
    forallb (λ v, match failure (get_tags item v) with None => true | Some _ => false end)
            (visual_subtypes item)) items.

(** The index invariant: the trie holds exactly the dictionary's keys, and
    no key maps to an empty set. *)
Definition consistent (d : Trie.t) (m : gmap string (gset EntryId)) : Prop :=
  Trie.key_set d = dom m ∧ ∀ w ids, m !! w = Some ids → ids ≠ ∅.

(** The states reached from [s] by the user editing the search bar any
    number of times.  A callback that raises inside Tk's event loop is
    reported there and the session goes on, so the outcome is dropped. *)
Inductive typed_from (s : State) : State → Prop :=
| typed_refl : typed_from s s
| typed_step (s1 : State) (text : string) :
    typed_from s s1 → typed_from s (type_text text s1).2.

(** The states the module passes through as long as no catalog walk
    raises: [init], edits of the search bar and rebuilds, in any order and
    whatever their outcome otherwise. *)
Inductive reachable (casefold : string → string) : State → Prop :=
| reach_initial : reachable casefold initial
| reach_init (cb : option (gset EntryId) → outcome unit) (s : State) :
    reachable casefold s → reachable casefold (init cb s).2
| reach_type (text : string) (s : State) :
    reachable casefold s → reachable casefold (type_text text s).2
| reach_rebuild (items : list Item) (s : State) :
    catalog_ok items = true →
    reachable casefold s → reachable casefold (rebuild_database casefold items s).2.

(** The last argument the refresh callback was called with. *)
Definition last_call (s : State) : option (option (gset EntryId)) := last (calls s).

(** One entry with two variants, only variant 0 tagged "special". *)
Definition catalog_variants : list Item :=
  [ MkItem "X" [0; 1]
      (λ v, if v =? 0 then tags ["special item"] else tags ["plain item"]) ].

(** Entry A alone. *)
Definition catalog_a : list Item :=
  [ MkItem "A" [0] (λ _, tags ["red door"]) ].


(** The states the concrete statements below start from: after a rebuild
    from A alone, or from A, B and C, with "red" in the search bar; then
    the failed rebuild from [catalog_bad], and the rebuild from A alone
    that removes B and C. *)
Definition state_a_red : State := (session catalog_a "red").2.
Definition state_abc_red : State := (session catalog_abc "red").2.
Definition state_abc_then_a : State :=
  (rebuild_database casefold_ascii catalog_a state_abc_red).2.

(** The state after [init] and a rebuild from [catalog_variants]. *)
Definition state_variants : State :=
  (rebuild_database casefold_ascii catalog_variants (init quiet initial).2).2.

(** The index of A, B and C with "red" in the search bar and its
    characters 1 to 3 selected; and the same with a blank text. *)
Definition state_selected : State :=
  set_selection (Some (1, 3)) state_abc_red.
Definition state_selected_blank : State :=
  set_widgets (MkWidgets "   " (Some (0, 2))) state_abc_red.

(** An entry the rebuild loops pass over without recording anything: no
    tag iterator of it raises, and every tag it yields is blank.  An entry
    without subtypes, or without tags, is the plainest case. *)
Definition silent (item : Item) : bool :=
  forallb (λ v,
    match failure (get_tags item v) with
    | None => forallb (λ tag, bool_decide (split tag = [])) (yielded (get_tags item v))
    | Some _ => false
    end) (visual_subtypes item).

(** An entry with two subtypes, one without tags and one with a blank tag. *)
Definition item_blank : Item :=
  MkItem "E" [0; 1] (λ v, if v =? 0 then tags [] else tags ["  "]).

(** A callback that always raises. *)
Definition failing : option (gset EntryId) → outcome unit :=
  λ _, Raise (CallbackError "refresh").

(** * The style properties pane of [app/StyleVarPane.py]

    The functions that read and move the pane's state: [mandatory_unlocked],
    [load_handler], [export_data] and [refresh].  Building the widgets
    ([make_pane]) and the description texts ([make_desc]) is Tk and
    localisation work and is left out, as is [save_handler], whose result
    is a [srctools.Property]. *)

Module StyleVarPane.

(** What a call returns: a value, or the [KeyError] of a missing
    dictionary key, or the error Tk raises when the value of an [IntVar]
    is not a number. *)
Inductive result (A : Type) : Type :=
| Done (a : A)
| KeyError (key : string)
| TclError (key : string).
Arguments Done {A} a.
Arguments KeyError {A} key.
Arguments TclError {A} key.

Section Pane.

(** [packages.Style]: only ever handed on to [applies_to_style]. *)
Variable Style : Type.

(** [IntVar.get] on the value a variable holds: Tk's conversion to an
    integer, [None] when Tk raises. *)
Variable getint : string → option Z.

(** [packages.StyleVar], as far as the pane reads it. *)
Record StyleVar : Type := MkStyleVar {
  id : string;
  applies_to_all : bool;
  applies_to_style : Style → bool
}.

(** The hard-coded [styleOptions] list; what its entries apply to is
    decided by [StyleVar.unstyled], outside this module. *)
Variable styleOptions : list StyleVar.

(** The module globals.  A checkbox is given by where it is gridded: the
    row, or [None] after [grid_remove]; a label of [UI] by whether it is
    gridded.  [_load_cback] is given by what calling it does.  The last two
    fields record the warnings logged and the calls of the callback. *)
Record Pane : Type := MkPane {
  VAR_LIST : list StyleVar;
  tk_vars : gmap string string;
  checkbox_chosen : gmap string (option nat);
  checkbox_other : gmap string (option nat);
  UI : gmap string bool;
  _load_cback : option (result unit);
  warnings : list string;
  load_calls : nat
}.

Definition set_tk_vars (m : gmap string string) (p : Pane) : Pane :=
  MkPane (VAR_LIST p) m (checkbox_chosen p) (checkbox_other p) (UI p)
         (_load_cback p) (warnings p) (load_calls p).
Definition set_chosen (m : gmap string (option nat)) (p : Pane) : Pane :=
  MkPane (VAR_LIST p) (tk_vars p) m (checkbox_other p) (UI p)
         (_load_cback p) (warnings p) (load_calls p).
Definition set_other (m : gmap string (option nat)) (p : Pane) : Pane :=
  MkPane (VAR_LIST p) (tk_vars p) (checkbox_chosen p) m (UI p)
         (_load_cback p) (warnings p) (load_calls p).
Definition set_UI (m : gmap string bool) (p : Pane) : Pane :=
  MkPane (VAR_LIST p) (tk_vars p) (checkbox_chosen p) (checkbox_other p) m
         (_load_cback p) (warnings p) (load_calls p).
Definition warn (name : string) (p : Pane) : Pane :=
  MkPane (VAR_LIST p) (tk_vars p) (checkbox_chosen p) (checkbox_other p) (UI p)
         (_load_cback p) (warnings p ++ [name]) (load_calls p).
Definition count_call (p : Pane) : Pane :=
  MkPane (VAR_LIST p) (tk_vars p) (checkbox_chosen p) (checkbox_other p) (UI p)
         (_load_cback p) (warnings p) (S (load_calls p)).

(** [mandatory_unlocked()]: a missing variable counts as locked. *)
Definition mandatory_unlocked (p : Pane) : result bool :=
  match tk_vars p !! "UnlockDefault" with
  | Some v =>
      match getint v with
      | Some n => Done (negb (n =? 0))
      | None => TclError "UnlockDefault"
      end
  | None => Done false
  end.

(** One round of the loop of [load_handler]: [tk_vars[name].set(value)],
    or a warning when there is no such variable. *)
Definition load_prop (p : Pane) (prop : string * string) : Pane :=
  match tk_vars p !! prop.1 with
  | Some _ => set_tk_vars (<[prop.1 := prop.2]> (tk_vars p)) p
  | None => warn prop.1 p
  end.

(** [load_handler(props)], the properties given as their
    [(real_name, value)] pairs. *)
Definition load_handler (props : list (string * string)) (p : Pane)
  : result unit * Pane :=
  let p := foldl load_prop p props in
  match _load_cback p with
  | Some r => (r, count_call p)
  | None => (Done tt, p)
  end.

(** The dictionary comprehension of [export_data], over the variables
    still to visit. *)
Fixpoint export_from (vars : list StyleVar) (chosen_style : Style) (p : Pane)
    (acc : gmap string bool) : result (gmap string bool) :=
  match vars with
  | [] => Done acc
  | var :: rest =>
      if applies_to_style var chosen_style then
        match tk_vars p !! id var with
        | Some v =>
            match getint v with
            | Some n => export_from rest chosen_style p (<[id var := n =? 1]> acc)
            | None => TclError (id var)
            end
        | None => KeyError (id var)
        end
      else export_from rest chosen_style p acc
  end.

(** [export_data(chosen_style)] *)
Definition export_data (chosen_style : Style) (p : Pane) : result (gmap string bool) :=
  export_from (VAR_LIST p ++ styleOptions) chosen_style p ∅.

(** [checkbox_chosen[k].grid(row=...)] or [.grid_remove()], and the same
    for [checkbox_other] and for the labels in [UI]. *)
Definition grid_chosen (k : string) (g : option nat) (p : Pane) : result unit * Pane :=
  match checkbox_chosen p !! k with
  | Some _ => (Done tt, set_chosen (<[k := g]> (checkbox_chosen p)) p)
  | None => (KeyError k, p)
  end.
Definition grid_other (k : string) (g : option nat) (p : Pane) : result unit * Pane :=
  match checkbox_other p !! k with
  | Some _ => (Done tt, set_other (<[k := g]> (checkbox_other p)) p)
  | None => (KeyError k, p)
  end.
Definition grid_UI (k : string) (g : bool) (p : Pane) : result unit * Pane :=
  match UI p !! k with
  | Some _ => (Done tt, set_UI (<[k := g]> (UI p)) p)
  | None => (KeyError k, p)
  end.

(** Sequencing: an error ends the run and keeps what was done. *)
Definition and_then {A B} (r : result A * Pane) (k : A → Pane → result B * Pane)
  : result B * Pane :=
  match r with
  | (Done a, p) => k a p
  | (KeyError key, p) => (KeyError key, p)
  | (TclError key, p) => (TclError key, p)
  end.

(** The loop of [refresh] over the variables still to visit, with the
    two row counters. *)
Fixpoint refresh_from (vars : list StyleVar) (selected_style : Style)
    (en_row dis_row : nat) (p : Pane) : result (nat * nat) * Pane :=
  match vars with
  | [] => (Done (en_row, dis_row), p)
  | var :: rest =>
      if applies_to_all var then
        (* Always visible! *)
        refresh_from rest selected_style en_row dis_row p
      else if applies_to_style var selected_style then
        and_then (grid_chosen (id var) (Some en_row) p) (λ _ p,
        and_then (grid_other (id var) None p) (λ _ p,
        refresh_from rest selected_style (S en_row) dis_row p))
      else
        and_then (grid_chosen (id var) None p) (λ _ p,
        and_then (grid_other (id var) (Some dis_row) p) (λ _ p,
        refresh_from rest selected_style en_row (S dis_row) p))
  end.

(** [refresh(selected_style)] *)
Definition refresh (selected_style : Style) (p : Pane) : result unit * Pane :=
  and_then (refresh_from (VAR_LIST p) selected_style 0 0 p) (λ rows p,
  and_then (grid_UI "stylevar_chosen_none" (rows.1 =? 0)%nat p) (λ _ p,
  grid_UI "stylevar_other_none" (rows.2 =? 0)%nat p)).

(** A variable that moves between the two frames. *)
Definition styled (var : StyleVar) : bool := negb (applies_to_all var).

(** Every styled variable of [vars] has its two checkboxes. *)
Definition present (vars : list StyleVar) (cc co : gmap string (option nat)) : Prop :=
  ∀ var, var ∈ vars → styled var = true →
         is_Some (cc !! id var) ∧ is_Some (co !! id var).

(** The pane as [make_pane] leaves it for [refresh]: both labels exist,
    and every variable that moves has its two checkboxes. *)
Definition laid_out (p : Pane) : Prop :=
  is_Some (UI p !! "stylevar_chosen_none")
  ∧ is_Some (UI p !! "stylevar_other_none")
  ∧ present (VAR_LIST p) (checkbox_chosen p) (checkbox_other p).

(** The styled variables among [vars] that apply, or do not apply, to
    the style. *)
Definition shown (selected_style : Style) (vars : list StyleVar) : list StyleVar :=
  List.filter (λ var, styled var && applies_to_style var selected_style) vars.
Definition hidden (selected_style : Style) (vars : list StyleVar) : list StyleVar :=
  List.filter (λ var, styled var && negb (applies_to_style var selected_style)) vars.

(** What the loop of [refresh] makes of [checkbox_chosen] and of
    [checkbox_other] when no key is missing. *)
Fixpoint rows_chosen (vars : list StyleVar) (selected_style : Style) (en_row : nat)
    (m : gmap string (option nat)) : gmap string (option nat) :=
  match vars with
  | [] => m
  | var :: rest =>
      if applies_to_all var then rows_chosen rest selected_style en_row m
      else if applies_to_style var selected_style then
        rows_chosen rest selected_style (S en_row) (<[id var := Some en_row]> m)
      else rows_chosen rest selected_style en_row (<[id var := None]> m)
  end.

Fixpoint rows_other (vars : list StyleVar) (selected_style : Style) (dis_row : nat)
    (m : gmap string (option nat)) : gmap string (option nat) :=
  match vars with
  | [] => m
  | var :: rest =>
      if applies_to_all var then rows_other rest selected_style dis_row m
      else if applies_to_style var selected_style then
        rows_other rest selected_style dis_row (<[id var := None]> m)
      else rows_other rest selected_style (S dis_row) (<[id var := Some dis_row]> m)
  end.

(** The value the last property named [name] carries, if there is one. *)
Definition last_value (props : list (string * string)) (name : string) : option string :=
  last (omap (λ prop, if decide (prop.1 = name) then Some prop.2 else None) props).

(** The value [export_data] computes for a variable: whether its
    [IntVar] reads 1. *)
Definition reads (p : Pane) (k : string) (b : bool) : Prop :=
  ∃ v n, tk_vars p !! k = Some v ∧ getint v = Some n ∧ b = (n =? 1).

(** The variables [export_data] looks up. *)
Definition exported (chosen_style : Style) (p : Pane) : list StyleVar :=
  List.filter (λ var, applies_to_style var chosen_style) (VAR_LIST p ++ styleOptions).

End Pane.

Arguments MkStyleVar {Style} id applies_to_all applies_to_style.
Arguments id {Style} s.
Arguments applies_to_all {Style} s.
Arguments applies_to_style {Style} s _.
Arguments MkPane {Style} _ _ _ _ _ _ _ _.
Arguments VAR_LIST {Style} p.
Arguments tk_vars {Style} p.
Arguments checkbox_chosen {Style} p.
Arguments checkbox_other {Style} p.
Arguments UI {Style} p.
Arguments _load_cback {Style} p.
Arguments warnings {Style} p.
Arguments load_calls {Style} p.
Arguments set_tk_vars {Style} m p.
Arguments set_chosen {Style} m p.
Arguments set_other {Style} m p.
Arguments set_UI {Style} m p.
Arguments warn {Style} name p.
Arguments count_call {Style} p.
Arguments mandatory_unlocked {Style} getint p.
Arguments load_prop {Style} p prop.
Arguments load_handler {Style} props p.
Arguments export_from {Style} getint vars chosen_style p acc.
Arguments export_data {Style} getint styleOptions chosen_style p.
Arguments exported {Style} styleOptions chosen_style p.
Arguments reads {Style} getint p k b.
Arguments grid_chosen {Style} k g p.
Arguments grid_other {Style} k g p.
Arguments grid_UI {Style} k g p.
Arguments and_then {Style A B} r k.
Arguments refresh_from {Style} vars selected_style en_row dis_row p.
Arguments refresh {Style} selected_style p.
Arguments styled {Style} var.
Arguments present {Style} vars cc co.
Arguments laid_out {Style} p.
Arguments shown {Style} selected_style vars.
Arguments hidden {Style} selected_style vars.
Arguments rows_chosen {Style} vars selected_style en_row m.
Arguments rows_other {Style} vars selected_style dis_row m.

(** Tk's conversion on the two values a checkbox writes. *)
Definition getint_bit (v : string) : option Z :=
  if decide (v = "1") then Some 1
  else if decide (v = "0") then Some 0
  else None.

(** Styles are numbered; variable "A" is for style 1, "B" for styles 1 and
    2, "C" for every style, "D" for style 2. *)
Definition var_a : StyleVar nat := MkStyleVar "A" false (λ st, bool_decide (st = 1%nat)).
Definition var_b : StyleVar nat :=
  MkStyleVar "B" false (λ st, bool_decide (st = 1%nat ∨ st = 2%nat)).
Definition var_c : StyleVar nat := MkStyleVar "C" true (λ _, true).
Definition var_d : StyleVar nat := MkStyleVar "D" false (λ st, bool_decide (st = 2%nat)).
Definition var_unlock : StyleVar nat := MkStyleVar "UnlockDefault" true (λ _, true).

(** A pane as [make_pane] would leave it for these variables. *)
Definition pane_abcd : Pane nat :=
  MkPane [var_a; var_b; var_c; var_d]
    {["A" := "1"; "B" := "0"; "C" := "1"; "D" := "0"; "UnlockDefault" := "0"]}
    {["A" := None; "B" := None; "D" := None]}
    {["A" := None; "B" := None; "D" := None]}
    {["stylevar_chosen_none" := false; "stylevar_other_none" := false]}
    (Some (Done tt)) [] 0.

(** The pane before [make_pane] has run. *)
Definition pane_empty : Pane nat := MkPane [] ∅ ∅ ∅ ∅ None [] 0.

End StyleVarPane.

(** * The error handlers of [app/__init__.py]

    [tk_error] and [on_error] are sequences of calls into Tk, the logger
    and the configuration, some of them inside [try: ... except Exception:
    pass].  The calls are modelled as steps that either complete, and are
    then recorded, or raise. *)

Module ErrorReport.

(** A traceback: the frames from the outermost in, never empty. *)
Definition traceback : Type := nat * list nat.

(** The calls the two handlers make. *)
Inductive step : Type :=
| FormatException (tb : traceback)
| GrabSetGlobal
| GrabRelease
| ClipboardAppend
| ImportMessagebox
| ImportGettext
| ShowInfo
| ImportConfig
| ConfigLoad
| SetShowLogWin
| SetWindowLogLevel
| ConfigSave
| LogError (tb : traceback)
| ImportBEE2
| CancelNursery.

(** What is raised: an [Exception], or a [BaseException] that is not one
    ([KeyboardInterrupt], [SystemExit]). *)
Inductive raised : Type := AnException | BaseOnly.

Inductive outcome : Type :=
| Returns
| Raises (e : raised).

Section Handlers.

(** Which calls fail in this run, and how. *)
Variable fails : step → option raised.

(** One call: recorded when it completes. *)
Definition call (s : step) (done : list step) : outcome * list step :=
  match fails s with
  | None => (Returns, done ++ [s])
  | Some e => (Raises e, done)
  end.

(** A block of calls: the first that raises ends it. *)
Fixpoint block (ss : list step) (done : list step) : outcome * list step :=
  match ss with
  | [] => (Returns, done)
  | s :: rest =>
      match call s done with
      | (Returns, done') => block rest done'
      | (Raises e, done') => (Raises e, done')
      end
  end.

(** [try: ... except Exception: pass] around a run. *)
Definition try_pass (r : outcome * list step) : outcome * list step :=
  match r with
  | (Raises AnException, done) => (Returns, done)
  | _ => r
  end.

(** [a] and then [b], unless [a] raised. *)
Definition seq (r : outcome * list step) (k : list step → outcome * list step)
  : outcome * list step :=
  match r with
  | (Returns, done) => k done
  | (Raises e, done) => (Raises e, done)
  end.

(** [on_error(exc_type, exc_value, exc_tb)]; [is_exception] is
    [issubclass(exc_type, Exception)]. *)
Definition on_error (is_exception : bool) (exc_tb : traceback) (done : list step)
  : outcome * list step :=
  seq (call (FormatException exc_tb) done) (λ done,
  (* Grab and release the grab so nothing else can block the error message. *)
  seq (try_pass (block [GrabSetGlobal; GrabRelease; ClipboardAppend] done)) (λ done,
  if negb is_exception then (Returns, done)
  else
    (* Put it onscreen. *)
    seq (try_pass (block [ImportMessagebox; ImportGettext; ShowInfo] done)) (λ done,
    (* Try to turn on the logging window for next time.. *)
    try_pass (block [ImportConfig; ConfigLoad; SetShowLogWin; SetWindowLogLevel;
                     ConfigSave] done)))).

(** [if exc_tb.tb_next: exc_tb = exc_tb.tb_next] *)
Definition move_up (exc_tb : traceback) : traceback :=
  match exc_tb.2 with
  | [] => exc_tb
  | frame :: rest => (frame, rest)
  end.

(** [tk_error(exc_type, exc_value, exc_tb)] *)
Definition tk_error (is_exception : bool) (exc_tb : traceback) (done : list step)
  : outcome * list step :=
  let exc_tb := move_up exc_tb in
  seq (try_pass (on_error is_exception exc_tb done)) (λ done,
  seq (call (LogError exc_tb) done) (λ done,
  try_pass (block [ImportBEE2; CancelNursery] done))).

End Handlers.

(** A run in which the clipboard and the dialog fail. *)
Definition fails_clipboard_and_dialog (s : step) : option raised :=
  match s with
  | ClipboardAppend | ShowInfo => Some AnException
  | _ => None
  end.

(** A run in which nothing fails. *)
Definition nothing_fails (s : step) : option raised := None.

End ErrorReport.

(** ** Small checks of the built-ins *)

Example split_red_door : split " red   door " = ["red"; "door"].
Proof. reflexivity. Qed.

Example casefold_Red : casefold_ascii "Red Door" = "red door".
Proof. reflexivity. Qed.

Example iterkeys_do :
  Trie.iterkeys (Trie.Trie ["door"; "red"; "dog"; "door"]) "do" ≡ₚ ["door"; "dog"].
Proof. vm_compute. reflexivity. Qed.

(** ** Whitespace splitting *)

Lemma append_nonempty (cur : string) (c : ascii) :
  cur +:+ String c EmptyString ≠ EmptyString.
Proof. destruct cur; discriminate. Qed.

Lemma split_from_nonempty (cur s : string) :
  cur ≠ EmptyString → split_from cur s ≠ [].
Proof.
  revert cur. induction s as [|c s IH]; intros cur Hcur; simpl.
  - destruct cur; [done | discriminate].
  - destruct (isspace c).
    + destruct cur; [done | discriminate].
    + apply IH, append_nonempty.
Qed.

Lemma split_nil_iff (s : string) : split s = [] ↔ all_space s = true.
Proof.
  unfold split. induction s as [|c s IH]; simpl; [done|].
  destruct (isspace c); simpl; [exact IH|].
  split; [|discriminate].
  intros H. by apply split_from_nonempty in H.
Qed.

(** ** Running the loops of [on_type] *)

Lemma set_word_to_ids_id (s : State) : set_word_to_ids (word_to_ids s) s = s.
Proof. by destruct s. Qed.

Lemma entries_for_touch m names k :
  entries_for (touch m names) k = entries_for m k.
Proof.
  revert m. induction names as [|n names IH]; intros m; simpl; [done|].
  rewrite IH. destruct (m !! n) eqn:Hn; [done|].
  unfold entries_for. destruct (decide (n = k)) as [->|Hne].
  - by rewrite lookup_insert_eq, Hn.
  - by rewrite lookup_insert_ne.
Qed.

Lemma touch_present m names :
  (∀ n, n ∈ names → is_Some (m !! n)) → touch m names = m.
Proof.
  revert m. induction names as [|n names IH]; intros m H; simpl; [done|].
  destruct (H n) as [ids Hids]; [left|]. rewrite Hids.
  apply IH. intros n' Hn'. apply H. by right.
Qed.

Lemma touch_app m l1 l2 : touch m (l1 ++ l2) = touch (touch m l1) l2.
Proof. unfold touch. by rewrite foldl_app. Qed.

Lemma getitem_run (k : string) (s : State) :
  word_to_ids_getitem k s
  = (Ok (entries_for (word_to_ids s) k), set_word_to_ids (touch (word_to_ids s) [k]) s).
Proof.
  unfold word_to_ids_getitem, entries_for, bind, get, modify, ret; simpl.
  destruct (word_to_ids s !! k); simpl; [|done].
  by rewrite set_word_to_ids_id.
Qed.

Lemma inner_loop_run (names : list string) (found : gset EntryId) (s : State) :
  for_fold names found (λ found name,
      ids <- word_to_ids_getitem name ;; ret (found ∪ ids)) s
  = (Ok (found ∪ ⋃ (entries_for (word_to_ids s) <$> names)),
     set_word_to_ids (touch (word_to_ids s) names) s).
Proof.
  revert found s. induction names as [|n names IH]; intros found s.
  - simpl. unfold ret. by rewrite set_word_to_ids_id, (right_id_L ∅ (∪)).
  - cbn [for_fold]. unfold bind at 1. unfold bind at 1.
    rewrite getitem_run. unfold ret at 1. rewrite IH.
    cbn [word_to_ids set_word_to_ids].
    replace (entries_for (touch (word_to_ids s) [n]) <$> names)
      with (entries_for (word_to_ids s) <$> names)
      by (apply list_fmap_ext; intros; symmetry; apply entries_for_touch).
    simpl. by rewrite (assoc_L (∪)).
Qed.

Lemma matches_touch d m names word :
  matches d (touch m names) word = matches d m word.
Proof.
  unfold matches. f_equal. apply list_fmap_ext. intros. apply entries_for_touch.
Qed.

Lemma find_ids_run (words : list string) (s : State) :
  find_ids words s
  = (Ok (found_for (database s) (word_to_ids s) words),
     set_word_to_ids
       (touch (word_to_ids s) (words ≫= Trie.iterkeys (database s))) s).
Proof.
  unfold find_ids, found_for.
  assert (∀ found s,
    for_fold words found (λ found word,
      s <- get ;;
      for_fold (Trie.iterkeys (database s) word) found (λ found name,
        ids <- word_to_ids_getitem name ;; ret (found ∪ ids))) s
    = (Ok (found ∪ ⋃ (matches (database s) (word_to_ids s) <$> words)),
       set_word_to_ids
         (touch (word_to_ids s) (words ≫= Trie.iterkeys (database s))) s)) as Hgen.
  { clear s. induction words as [|w words IH]; intros found s.
    - simpl. unfold ret. by rewrite set_word_to_ids_id, (right_id_L ∅ (∪)).
    - cbn [for_fold]. unfold bind at 1. unfold bind at 1. unfold get at 1.
      rewrite inner_loop_run. rewrite IH.
      cbn [word_to_ids database set_word_to_ids].
      replace (matches (database s) (touch (word_to_ids s) (Trie.iterkeys (database s) w)) <$> words)
        with (matches (database s) (word_to_ids s) <$> words)
        by (apply list_fmap_ext; intros; symmetry; apply matches_touch).
      simpl. rewrite touch_app. by rewrite (assoc_L (∪)). }
  rewrite Hgen. by rewrite (left_id_L ∅ (∪)).
Qed.

Lemma elem_of_iterkeys (d : Trie.t) (w name : string) :
  name ∈ Trie.iterkeys d w ↔ name ∈ Trie.key_set d ∧ String.prefix w name = true.
Proof.
  unfold Trie.iterkeys, Trie.keys.
  rewrite list_elem_of_In, filter_In, <- list_elem_of_In, elem_of_elements. done.
Qed.

Lemma touch_consistent (d : Trie.t) m (words : list string) :
  Trie.key_set d ⊆ dom m → touch m (words ≫= Trie.iterkeys d) = m.
Proof.
  intros Hsub. apply touch_present. intros n Hn.
  apply list_elem_of_bind in Hn as (w & Hn & _).
  apply elem_of_iterkeys in Hn as [Hn _].
  apply elem_of_dom. by apply Hsub.
Qed.

Lemma elem_of_matches d m (w : string) (x : EntryId) :
  x ∈ matches d m w ↔
  ∃ name, name ∈ Trie.key_set d ∧ String.prefix w name = true ∧ x ∈ entries_for m name.
Proof.
  unfold matches. rewrite elem_of_union_list. split.
  - intros (X & HX & Hx). apply list_elem_of_fmap in HX as (name & -> & Hname).
    apply elem_of_iterkeys in Hname as [? ?]. eauto.
  - intros (name & Hk & Hp & Hx). exists (entries_for m name). split; [|done].
    apply list_elem_of_fmap. exists name. split; [done|]. by apply elem_of_iterkeys.
Qed.

Lemma elem_of_found_for d m (words : list string) (x : EntryId) :
  x ∈ found_for d m words ↔
  ∃ w name, w ∈ words ∧ name ∈ Trie.key_set d ∧ String.prefix w name = true
            ∧ x ∈ entries_for m name.
Proof.
  unfold found_for. rewrite elem_of_union_list. split.
  - intros (X & HX & Hx). apply list_elem_of_fmap in HX as (w & -> & Hw).
    apply elem_of_matches in Hx as (name & ? & ? & ?). eauto 10.
  - intros (w & name & Hw & Hk & Hp & Hx). exists (matches d m w). split.
    + apply list_elem_of_fmap. eauto.
    + apply elem_of_matches. eauto.
Qed.

(** One run of [on_type]: what it hands to the callback, and what it
    leaves behind. *)
Lemma on_type_run (c : on_type_closure) (s : State) :
  let text := search_var (widgets s) in
  let arg := evaluate (database s) (word_to_ids s) text in
  ∃ s', on_type c s = (refresh_cback c arg, s')
        ∧ calls s' = calls s ++ [arg]
        ∧ database s' = database s
        ∧ word_to_ids s'
          = touch (word_to_ids s) (split text ≫= Trie.iterkeys (database s))
        ∧ _type_cback s' = _type_cback s
        ∧ search_var (widgets s') = text.
Proof.
  intros text arg. subst arg. unfold on_type, evaluate.
  unfold bind at 1. unfold get at 1. fold text.
  destruct (split text) as [|w ws] eqn:Hsplit.
  - unfold call_refresh, bind, modify. simpl.
    destruct (refresh_cback c None) as [[]|e]; eexists; (split; [reflexivity|]);
      simpl; by destruct s.
  - unfold bind at 1. rewrite find_ids_run.
    unfold bind at 1. unfold get at 1.
    unfold call_refresh, bind, modify, ret, raise. simpl.
    destruct (refresh_cback c _) as [[]|e]; [destruct (selection (widgets s)) as [[a b]|]|];
      eexists; (split; [reflexivity|]); simpl; done.
Qed.

(** ** Running the loops of [rebuild_database] *)

Lemma add_run (k : string) (x : EntryId) (s : State) :
  word_to_ids_add k x s
  = (Ok tt, set_word_to_ids (add_pair (word_to_ids s) (k, x)) s).
Proof.
  unfold word_to_ids_add. unfold bind at 1. rewrite getitem_run.
  unfold modify, add_pair, set_word_to_ids, entries_for. simpl.
  destruct (word_to_ids s !! k) eqn:Hk; simpl; [done|].
  by rewrite insert_insert_eq.
Qed.

Lemma emits_ret : emits (ret tt) [] None.
Proof. intros s. unfold ret. simpl. by rewrite set_word_to_ids_id. Qed.

Lemma emits_raise e : emits (raise e) [] (Some e).
Proof. intros s. unfold raise. simpl. by rewrite set_word_to_ids_id. Qed.

Lemma emits_add k x : emits (word_to_ids_add k x) [(k, x)] None.
Proof. intros s. by rewrite add_run. Qed.

Lemma emits_seq m k ps ps' r :
  emits m ps None → emits k ps' r → emits (m ;; k) (ps ++ ps') r.
Proof.
  intros Hm Hk s. unfold bind. rewrite Hm. simpl. rewrite Hk. simpl.
  unfold record_all. by rewrite foldl_app.
Qed.

Lemma emits_stop m k ps e : emits m ps (Some e) → emits (m ;; k) ps (Some e).
Proof. intros Hm s. unfold bind. by rewrite Hm. Qed.

Lemma emits_for_each {A} (l : list A) (body : A → M unit) f :
  (∀ a, emits (body a) (f a) None) → emits (for_each l body) (l ≫= f) None.
Proof.
  intros Hbody. induction l as [|a l IH]; simpl; [apply emits_ret|].
  by apply emits_seq.
Qed.

Section RebuildRuns.

Variable casefold : string → string.

Lemma emits_tag (x : EntryId) (tag : string) :
  emits (for_each (split tag) (λ word, word_to_ids_add (casefold word) x))
        (tag_pairs casefold x tag) None.
Proof.
  unfold tag_pairs. induction (split tag) as [|w ws IH]; simpl; [apply emits_ret|].
  apply (emits_seq _ _ [_]); [apply emits_add | exact IH].
Qed.

Lemma emits_tags (x : EntryId) (it : tag_iter) :
  emits (for_tags it (λ tag,
           for_each (split tag) (λ word, word_to_ids_add (casefold word) x)))
        (yielded it ≫= tag_pairs casefold x) (failure it).
Proof.
  unfold for_tags.
  rewrite <- (app_nil_r (yielded it ≫= _)).
  apply emits_seq.
  - apply emits_for_each. intros tag. apply emits_tag.
  - destruct (failure it); [apply emits_raise | apply emits_ret].
Qed.

Lemma emits_subtypes (item : Item) (vs : list Z) :
  emits (for_each vs (λ subtype_ind,
           for_tags (get_tags item subtype_ind) (λ tag,
             for_each (split tag) (λ word,
               word_to_ids_add (casefold word) (id item, subtype_ind)))))
        (scan_subtypes casefold item vs).1 (scan_subtypes casefold item vs).2.
Proof.
  induction vs as [|v vs IH]; simpl; [apply emits_ret|].
  pose proof (emits_tags (id item, v) (get_tags item v)) as Hv.
  destruct (failure (get_tags item v)) as [e|]; simpl.
  - by apply emits_stop.
  - by apply emits_seq.
Qed.

Lemma populate_emits (items : list Item) :
  emits (populate casefold items) (scan casefold items).1 (scan casefold items).2.
Proof.
  unfold populate. induction items as [|item rest IH]; simpl; [apply emits_ret|].
  pose proof (emits_subtypes item (visual_subtypes item)) as Hi.
  destruct (scan_subtypes casefold item (visual_subtypes item)) as [ps [e|]]; simpl in *.
  - by apply emits_stop.
  - by apply emits_seq.
Qed.

(** A rebuild whose catalog walk raises. *)
Lemma rebuild_raise_run (items : list Item) (e : exn) (s : State) :
  (scan casefold items).2 = Some e →
  rebuild_database casefold items s
  = (Raise e, set_word_to_ids (built_map casefold items) s).
Proof.
  intros He. unfold rebuild_database. unfold bind at 1. unfold modify at 1.
  unfold bind at 1. rewrite populate_emits, He. done.
Qed.

(** A rebuild whose catalog walk completes. *)
Lemma rebuild_ok_run (items : list Item) (s : State) :
  (scan casefold items).2 = None →
  rebuild_database casefold items s
  = call_type_cback
      (set_database (built_trie casefold items)
         (set_word_to_ids (built_map casefold items) s)).
Proof.
  intros He. unfold rebuild_database. unfold bind at 1. unfold modify at 1.
  unfold bind at 1. rewrite populate_emits, He. simpl.
  unfold bind at 1. unfold modify at 1. done.
Qed.

End RebuildRuns.

(** ** The dictionary a rebuild leaves *)

Lemma entries_for_add_pair m p w (x : EntryId) :
  x ∈ entries_for (add_pair m p) w ↔ x ∈ entries_for m w ∨ p = (w, x).
Proof.
  destruct p as [k y]. unfold add_pair, entries_for at 1. simpl.
  destruct (decide (k = w)) as [->|Hne].
  - rewrite lookup_insert_eq. simpl. rewrite elem_of_union, elem_of_singleton.
    split; intros [?|?]; auto; [right; congruence | right; congruence].
  - rewrite lookup_insert_ne by done. fold (entries_for m w).
    split; [auto|]. intros [?|?]; [done | congruence].
Qed.

Lemma entries_for_record_all (ps : list (string * EntryId)) m w (x : EntryId) :
  x ∈ entries_for (record_all m ps) w ↔ x ∈ entries_for m w ∨ (w, x) ∈ ps.
Proof.
  revert m. induction ps as [|p ps IH]; intros m; simpl.
  - rewrite elem_of_nil. tauto.
  - rewrite IH, entries_for_add_pair, elem_of_cons.
    split; [intros [[?|?]|?] | intros [?|[?|?]]]; auto.
Qed.

Lemma dom_record_all (ps : list (string * EntryId)) (m : gmap string (gset EntryId)) :
  dom (record_all m ps) = dom m ∪ list_to_set ps.*1.
Proof.
  revert m. induction ps as [|p ps IH]; intros m; simpl.
  - by rewrite (right_id_L ∅ (∪)).
  - rewrite IH. unfold add_pair. rewrite dom_insert_L. simpl.
    by rewrite (comm_L (∪) {[p.1]} (dom m)), (assoc_L (∪)).
Qed.

Lemma record_all_nonempty (ps : list (string * EntryId)) (m : gmap string (gset EntryId)) :
  (∀ w ids, m !! w = Some ids → ids ≠ ∅) →
  ∀ w ids, record_all m ps !! w = Some ids → ids ≠ ∅.
Proof.
  revert m. induction ps as [|[k y] ps IH]; intros m Hm; simpl; [done|].
  apply IH. intros w ids. unfold add_pair. simpl.
  destruct (decide (k = w)) as [->|Hne].
  - rewrite lookup_insert_eq. intros [= <-] Hempty.
    apply (not_elem_of_empty (C:=gset EntryId) y). rewrite <- Hempty.
    apply elem_of_union_r. by apply elem_of_singleton.
  - rewrite lookup_insert_ne by done. apply Hm.
Qed.

Lemma key_set_of_dict_keys (m : gmap string (gset EntryId)) :
  Trie.key_set (Trie.Trie (dict_keys m)) = dom m.
Proof. unfold Trie.Trie, dict_keys. simpl. symmetry. apply leibniz_equiv, dom_alt. Qed.

Section ScanFacts.

Variable casefold : string → string.

Lemma built_consistent (items : list Item) :
  consistent (built_trie casefold items) (built_map casefold items).
Proof.
  split.
  - apply key_set_of_dict_keys.
  - apply record_all_nonempty. intros w ids. by rewrite lookup_empty.
Qed.

Lemma entries_for_built (items : list Item) (w : string) (x : EntryId) :
  x ∈ entries_for (built_map casefold items) w ↔ (w, x) ∈ (scan casefold items).1.
Proof.
  unfold built_map. rewrite entries_for_record_all.
  unfold entries_for. rewrite lookup_empty. simpl. rewrite elem_of_empty. tauto.
Qed.

Lemma elem_of_tag_pairs (x y : EntryId) (ts : list string) (w : string) :
  (w, y) ∈ ts ≫= tag_pairs casefold x ↔
  y = x ∧ ∃ tag word, tag ∈ ts ∧ word ∈ split tag ∧ w = casefold word.
Proof.
  rewrite list_elem_of_bind. unfold tag_pairs. split.
  - intros (tag & Hin & Htag). apply list_elem_of_fmap in Hin as (word & [= -> ->] & Hword).
    eauto 10.
  - intros (-> & tag & word & Htag & Hword & ->). exists tag. split; [|done].
    apply list_elem_of_fmap. eauto.
Qed.

Lemma scan_subtypes_sound (item : Item) (vs : list Z) (w : string) (x : EntryId) :
  (w, x) ∈ (scan_subtypes casefold item vs).1 →
  x.1 = id item ∧ x.2 ∈ vs ∧
  ∃ tag word, tag ∈ yielded (get_tags item x.2) ∧ word ∈ split tag ∧ w = casefold word.
Proof.
  induction vs as [|v vs IH]; simpl; [by rewrite elem_of_nil|].
  destruct (failure (get_tags item v)); simpl.
  - rewrite elem_of_tag_pairs. intros (-> & Hex). simpl. split; [done|]. split; [left|done].
  - rewrite elem_of_app, elem_of_tag_pairs. intros [(-> & Hex)|Hin].
    + simpl. split; [done|]. split; [left|done].
    + destruct (IH Hin) as (? & ? & ?). split; [done|]. split; [by right|done].
Qed.

Lemma scan_subtypes_complete (item : Item) (vs : list Z) (w : string) (v : Z) :
  (scan_subtypes casefold item vs).2 = None →
  v ∈ vs →
  (∃ tag word, tag ∈ yielded (get_tags item v) ∧ word ∈ split tag ∧ w = casefold word) →
  (w, (id item, v)) ∈ (scan_subtypes casefold item vs).1.
Proof.
  induction vs as [|v' vs IH]; simpl; [by rewrite elem_of_nil|].
  destruct (failure (get_tags item v')); simpl; [done|].
  intros Hok Hv Hex. rewrite elem_of_app, elem_of_tag_pairs.
  apply elem_of_cons in Hv as [->|Hv]; [left; done | right; by apply IH].
Qed.

(** Whatever a catalog walk records, complete or not, is a tagged
    variant of the catalog. *)
Lemma scan_sound (items : list Item) (w : string) (x : EntryId) :
  (w, x) ∈ (scan casefold items).1 → tagged casefold items w x.
Proof.
  induction items as [|item rest IH]; simpl; [by rewrite elem_of_nil|].
  assert ((w, x) ∈ (scan_subtypes casefold item (visual_subtypes item)).1 →
          tagged casefold (item :: rest) w x) as Hhead.
  { intros Hin. apply scan_subtypes_sound in Hin as (Hid & Hv & tag & word & ? & ? & ?).
    exists item, tag, word. split; [left|]. split; [|done].
    destruct x; simpl in *; congruence. }
  destruct (scan_subtypes casefold item (visual_subtypes item)) as [ps [e|]]; simpl in *;
    [done|].
  rewrite elem_of_app. intros [Hin|Hin]; [auto|].
  destruct (IH Hin) as (item' & tag & word & ? & ?).
  exists item', tag, word. split; [by right | done].
Qed.

(** A walk that completes records every tagged variant. *)
Lemma scan_complete (items : list Item) (w : string) (x : EntryId) :
  (scan casefold items).2 = None →
  tagged casefold items w x → (w, x) ∈ (scan casefold items).1.
Proof.
  intros Hok (item & tag & word & Hitem & Hx & Hv & Htag & Hword & Hw).
  induction items as [|item' rest IH]; simpl in *; [by apply elem_of_nil in Hitem|].
  pose proof (scan_subtypes_complete item' (visual_subtypes item') w x.2) as Hc.
  destruct (scan_subtypes casefold item' (visual_subtypes item')) as [ps [e|]]; simpl in *;
    [done|].
  rewrite elem_of_app. apply elem_of_cons in Hitem as [<-|Hitem].
  - left. rewrite Hx. apply Hc; eauto.
  - right. by apply IH.
Qed.

Lemma scan_ok (items : list Item) :
  catalog_ok items = true ↔ (scan casefold items).2 = None.
Proof.
  unfold catalog_ok. induction items as [|item rest IH]; simpl; [done|].
  rewrite andb_true_iff, IH. clear IH.
  assert (forallb (λ v, match failure (get_tags item v) with
                        | None => true | Some _ => false end) (visual_subtypes item) = true
          ↔ (scan_subtypes casefold item (visual_subtypes item)).2 = None) as ->.
  { induction (visual_subtypes item) as [|v vs IH]; simpl; [done|].
    destruct (failure (get_tags item v)); simpl; [split; [intros [=]|intros [=]] | exact IH]. }
  destruct (scan_subtypes casefold item (visual_subtypes item)) as [ps [e|]]; simpl.
  - split; [intros [[=] _] | intros [=]].
  - tauto.
Qed.

End ScanFacts.

(** ** One run of [rebuild_database], and of [type_text] *)

Section Runs.

Variable casefold : string → string.

Lemma evaluate_consistent_touch (d : Trie.t) m (text : string) :
  consistent d m → touch m (split text ≫= Trie.iterkeys d) = m.
Proof. intros [Hk _]. apply touch_consistent. by rewrite Hk. Qed.

(** The three ways a rebuild can go. *)
Lemma rebuild_run (items : list Item) (s : State) :
  let bm := built_map casefold items in
  let bt := built_trie casefold items in
  match (scan casefold items).2, _type_cback s with
  | Some e, _ =>
      rebuild_database casefold items s = (Raise e, set_word_to_ids bm s)
  | None, None =>
      rebuild_database casefold items s
      = (Raise TypeError, set_database bt (set_word_to_ids bm s))
  | None, Some c =>
      let arg := evaluate bt bm (search_var (widgets s)) in
      ∃ s', rebuild_database casefold items s = (refresh_cback c arg, s')
            ∧ calls s' = calls s ++ [arg]
            ∧ database s' = bt ∧ word_to_ids s' = bm
            ∧ _type_cback s' = Some c
            ∧ search_var (widgets s') = search_var (widgets s)
  end.
Proof.
  intros bm bt.
  destruct (scan casefold items).2 as [e|] eqn:Hscan.
  - by apply rebuild_raise_run.
  - rewrite rebuild_ok_run by done. fold bm bt.
    unfold call_type_cback, bind, get.
    cbn [_type_cback set_database set_word_to_ids].
    destruct (_type_cback s) as [c|] eqn:Hc; [|done].
    destruct (on_type_run c (set_database bt (set_word_to_ids bm s)))
      as (s' & Hrun & Hcalls & Hd & Hm & Hcb & Htext).
    cbn [database word_to_ids widgets calls _type_cback set_database set_word_to_ids]
      in Hrun, Hcalls, Hd, Hm, Hcb, Htext.
    rewrite evaluate_consistent_touch in Hm by apply built_consistent.
    exists s'. rewrite Hcb, Hc. done.
Qed.

(** What a completed rebuild tells about the states around it. *)
Lemma rebuild_completed (items : list Item) (s s' : State) :
  rebuild_database casefold items s = (Ok tt, s') →
  catalog_ok items = true
  ∧ database s' = built_trie casefold items
  ∧ word_to_ids s' = built_map casefold items
  ∧ search_var (widgets s') = search_var (widgets s)
  ∧ calls s' = calls s ++ [evaluate (database s') (word_to_ids s') (search_var (widgets s))]
  ∧ ∃ c, _type_cback s = Some c ∧ _type_cback s' = Some c.
Proof.
  intros Hrun. pose proof (rebuild_run items s) as H. simpl in H.
  rewrite (scan_ok casefold).
  destruct (scan casefold items).2 as [e|]; [congruence|].
  destruct (_type_cback s) as [c|]; [|congruence].
  destruct H as (s1 & Hrun1 & Hcalls & Hd & Hm & Hcb & Htext).
  rewrite Hrun in Hrun1. injection Hrun1 as Hr <-.
  rewrite Hd, Hm. eauto 10.
Qed.

End Runs.

(** Typing leaves a consistent index as it is and appends one call. *)
Lemma type_text_run (text : string) (s : State) (c : on_type_closure) :
  _type_cback s = Some c →
  consistent (database s) (word_to_ids s) →
  let s' := (type_text text s).2 in
  database s' = database s ∧ word_to_ids s' = word_to_ids s
  ∧ _type_cback s' = Some c
  ∧ calls s' = calls s ++ [evaluate (database s) (word_to_ids s) text].
Proof.
  intros Hc Hcons.
  assert (type_text text s
          = on_type c (set_widgets (MkWidgets text (selection (widgets s))) s)) as ->.
  { unfold type_text, bind, get, modify. by rewrite Hc. }
  destruct (on_type_run c (set_widgets (MkWidgets text (selection (widgets s))) s))
    as (s' & Hrun & Hcalls & Hd & Hm & Hcb & Htext).
  cbn [database word_to_ids widgets calls _type_cback set_widgets search_var]
    in Hrun, Hcalls, Hd, Hm, Hcb, Htext.
  rewrite evaluate_consistent_touch in Hm by done.
  rewrite Hrun. simpl. by rewrite Hcb.
Qed.

Lemma typed_from_index (s s' : State) (c : on_type_closure) :
  _type_cback s = Some c →
  consistent (database s) (word_to_ids s) →
  typed_from s s' →
  database s' = database s ∧ word_to_ids s' = word_to_ids s ∧ _type_cback s' = Some c
  ∧ ∃ texts, calls s' = calls s ++ (evaluate (database s) (word_to_ids s) <$> texts).
Proof.
  intros Hc Hcons Ht. induction Ht as [|s1 text Ht (Hd & Hm & Hcb & texts & Hcalls)].
  - repeat split; try done. exists []. simpl. by rewrite app_nil_r.
  - destruct (type_text_run text s1 c) as (Hd' & Hm' & Hcb' & Hcalls'); [done| |].
    { by rewrite Hd, Hm. }
    rewrite Hd', Hm', Hd, Hm. repeat split; try done.
    exists (texts ++ [text]). rewrite Hcalls', Hcalls, Hd, Hm.
    by rewrite fmap_app, app_assoc.
Qed.

Lemma type_text_on_type (text : string) (s : State) (c : on_type_closure) :
  _type_cback s = Some c →
  type_text text s = on_type c (set_widgets (MkWidgets text (selection (widgets s))) s).
Proof. intros Hc. unfold type_text, bind, get, modify. by rewrite Hc. Qed.

(** Whatever the index, typing hands [evaluate] of it to the callback. *)
Lemma type_text_calls (text : string) (s : State) (c : on_type_closure) :
  _type_cback s = Some c →
  (type_text text s).1 = refresh_cback c (evaluate (database s) (word_to_ids s) text)
  ∧ calls (type_text text s).2
    = calls s ++ [evaluate (database s) (word_to_ids s) text].
Proof.
  intros Hc. rewrite (type_text_on_type _ _ c Hc).
  destruct (on_type_run c (set_widgets (MkWidgets text (selection (widgets s))) s))
    as (s' & Hrun & Hcalls & _).
  rewrite Hrun. done.
Qed.

Lemma last_call_snoc (s s' : State) (a : option (gset EntryId)) :
  calls s' = calls s ++ [a] → last_call s' = Some a.
Proof. unfold last_call. intros ->. apply last_snoc. Qed.

(** ** Queries against a rebuilt index *)

Section Queries.

Variable casefold : string → string.

Lemma built_query_sound (items : list Item) (words : list string) (x : EntryId) :
  x ∈ found_for (built_trie casefold items) (built_map casefold items) words →
  ∃ token w, token ∈ words ∧ String.prefix token w = true ∧ tagged casefold items w x.
Proof.
  rewrite elem_of_found_for. intros (token & w & Htoken & _ & Hp & Hx).
  exists token, w. repeat split; try done.
  by apply scan_sound, entries_for_built.
Qed.

Lemma built_query_iff (items : list Item) (words : list string) (x : EntryId) :
  (scan casefold items).2 = None →
  x ∈ found_for (built_trie casefold items) (built_map casefold items) words ↔
  ∃ token w, token ∈ words ∧ String.prefix token w = true ∧ tagged casefold items w x.
Proof.
  intros Hok. split; [apply built_query_sound|].
  intros (token & w & Htoken & Hp & Htag).
  apply (scan_complete casefold) in Htag; [|done].
  apply entries_for_built in Htag.
  apply elem_of_found_for. exists token, w. repeat split; try done.
  destruct (built_consistent casefold items) as [-> _].
  apply elem_of_dom. unfold entries_for in Htag.
  destruct (built_map casefold items !! w); [done|].
  simpl in Htag. by apply elem_of_empty in Htag.
Qed.




End Queries.

(** ** The invariant over a whole session *)

Lemma initial_consistent : consistent (database initial) (word_to_ids initial).
Proof.
  split.
  - simpl. by rewrite dom_empty_L.
  - intros w ids. simpl. by rewrite lookup_empty.
Qed.

(** As long as no catalog walk raises, the trie and the dictionary agree
    in every state: no step changes one without the other. *)
Lemma reachable_consistent (casefold : string → string) (s : State) :
  reachable casefold s → consistent (database s) (word_to_ids s).
Proof.
  induction 1 as [|cb s _ IH|text s _ IH|items s Hok _ _].
  - apply initial_consistent.
  - exact IH.
  - destruct (_type_cback s) as [c|] eqn:Hc.
    + destruct (type_text_run text s c Hc IH) as (-> & -> & _). exact IH.
    + unfold type_text, bind, get. rewrite Hc. exact IH.
  - pose proof (rebuild_run casefold items s) as H. simpl in H.
    apply (scan_ok casefold) in Hok. rewrite Hok in H.
    destruct (_type_cback s) as [c|].
    + destruct H as (s' & Hrun & _ & Hd & Hm & _).
      rewrite Hrun. simpl. rewrite Hd, Hm. apply built_consistent.
    + rewrite H. apply built_consistent.
Qed.

(** * The claims *)

(** C1.  Query evaluation is meant to be case-insensitive because both
    sides fold case.  The index side does ([word.casefold()] in
    [rebuild_database]); [on_type] looks its tokens up as typed.  On the
    catalog A "red door", B "blue door", C "red wall" the texts "RED" and
    "red" fold to the same word, yet "red" finds A and C while "RED" finds
    nothing. *)
Theorem query_tokens_not_casefolded :
  casefold_ascii "RED" = casefold_ascii "red"
  ∧ (session catalog_abc "red").1 = Ok tt
  ∧ last_call (session catalog_abc "red").2 = Some (Some {[("A", 0); ("C", 0)]})
  ∧ (session catalog_abc "RED").1 = Ok tt
  ∧ last_call (session catalog_abc "RED").2 = Some (Some ∅).
Proof. vm_compute. repeat split; reflexivity. Qed.

(** C3.  Whatever the index, a query text that splits into no word at all
    makes [on_type] call the callback with [None], the no-filter value, and
    so never with the empty set. *)
Theorem empty_query_gives_sentinel (c : on_type_closure) (s : State) (text : string) :
  _type_cback s = Some c →
  split text = [] →
  (type_text text s).1 = refresh_cback c None
  ∧ calls (type_text text s).2 = calls s ++ [None]
  ∧ last_call (type_text text s).2 = Some None
  ∧ last_call (type_text text s).2 ≠ Some (Some ∅).
Proof.
  intros Hc Hsplit.
  destruct (type_text_calls text s c Hc) as [Hr Hcalls].
  unfold evaluate in Hr, Hcalls. rewrite Hsplit in Hr, Hcalls.
  pose proof (last_call_snoc _ _ _ Hcalls) as Hlast.
  rewrite Hlast. repeat split; try done.
Qed.

Lemma empty_query_gives_sentinel_witness :
  _type_cback (init quiet initial).2 = Some (Closure quiet)
  ∧ split "   " = []
  ∧ last_call (type_text "   " (init quiet initial).2).2 = Some None.
Proof.
  split; [reflexivity|]. split; [reflexivity|].
  apply (empty_query_gives_sentinel (Closure quiet) (init quiet initial).2 "   ");
    reflexivity.
Defined.

(** C4.  For any index, the set [on_type] hands to the callback for a text
    with at least one word holds exactly the identifiers stored under some
    indexed word that some query word is a prefix of; a query word that
    matches nothing adds nothing.  On A "red door", B "blue door",
    C "red wall": "red" gives {A, C}, "red blue" gives {A, B, C}, "doo" gives
    {A, B}, and "xyz" gives the empty set, not [None]. *)
Theorem query_is_union_of_prefix_matches :
  (∀ (c : on_type_closure) (s : State) (text : string),
     _type_cback s = Some c →
     ∃ arg, calls (type_text text s).2 = calls s ++ [arg]
            ∧ (arg = None ↔ split text = [])
            ∧ ∀ found, arg = Some found →
                ∀ x, x ∈ found ↔
                     ∃ token name,
                       token ∈ split text
                       ∧ name ∈ Trie.keys (database s)
                       ∧ String.prefix token name = true
                       ∧ x ∈ entries_for (word_to_ids s) name)
  ∧ last_call (session catalog_abc "red").2 = Some (Some {[("A", 0); ("C", 0)]})
  ∧ last_call (session catalog_abc "red blue").2
    = Some (Some {[("A", 0); ("B", 0); ("C", 0)]})
  ∧ last_call (session catalog_abc "doo").2 = Some (Some {[("A", 0); ("B", 0)]})
  ∧ last_call (session catalog_abc "xyz").2 = Some (Some ∅).
Proof.
  split.
  - intros c s text Hc.
    destruct (type_text_calls text s c Hc) as [_ Hcalls].
    exists (evaluate (database s) (word_to_ids s) text). split; [done|].
    unfold evaluate. destruct (split text) as [|w ws] eqn:Hsplit.
    + split; [done|]. intros found [=].
    + split; [done|]. intros found [= <-] x.
      rewrite elem_of_found_for. unfold Trie.keys.
      by setoid_rewrite elem_of_elements.
  - vm_compute. repeat split; reflexivity.
Qed.

Lemma query_is_union_of_prefix_matches_witness :
  ∃ arg, calls (type_text "re" (session catalog_abc "").2).2
         = calls (session catalog_abc "").2 ++ [arg]
         ∧ (arg = None ↔ split "re" = []).
Proof.
  destruct query_is_union_of_prefix_matches as [H _].
  destruct (H (Closure quiet) (session catalog_abc "").2 "re" eq_refl)
    as (arg & Hcalls & Hnone & _).
  exists arg. split; [exact Hcalls | exact Hnone].
Defined.








(** C7.  Two rebuilds from the same catalog that complete, started from
    any two states (the second may start where the first ended), leave the
    same trie and the same dictionary, so every query text gets the same
    answer from both. *)
Theorem rebuild_deterministic
    (casefold : string → string) (items : list Item) (s1 s1' s2 s2' : State) :
  rebuild_database casefold items s1 = (Ok tt, s1') →
  rebuild_database casefold items s2 = (Ok tt, s2') →
  database s1' = database s2'
  ∧ word_to_ids s1' = word_to_ids s2'
  ∧ ∀ text,
      last_call (type_text text s1').2 = last_call (type_text text s2').2
      ∧ last_call (type_text text s1').2
        = Some (evaluate (database s1') (word_to_ids s1') text).
Proof.
  intros Hrun1 Hrun2.
  destruct (rebuild_completed casefold items s1 s1' Hrun1)
    as (_ & Hd1 & Hm1 & _ & _ & c1 & _ & Hc1).
  destruct (rebuild_completed casefold items s2 s2' Hrun2)
    as (_ & Hd2 & Hm2 & _ & _ & c2 & _ & Hc2).
  split; [congruence|]. split; [congruence|]. intros text.
  destruct (type_text_calls text s1' c1 Hc1) as [_ H1].
  destruct (type_text_calls text s2' c2 Hc2) as [_ H2].
  rewrite (last_call_snoc _ _ _ H1), (last_call_snoc _ _ _ H2).
  split; [congruence | done].
Qed.

Lemma rebuild_deterministic_witness :
  rebuild_database casefold_ascii catalog_a state_abc_red = (Ok tt, state_abc_then_a)
  ∧ rebuild_database casefold_ascii catalog_a state_abc_then_a
    = (Ok tt, (rebuild_database casefold_ascii catalog_a state_abc_then_a).2)
  ∧ word_to_ids state_abc_then_a
    = word_to_ids (rebuild_database casefold_ascii catalog_a state_abc_then_a).2.
Proof.
  assert (rebuild_database casefold_ascii catalog_a state_abc_red
          = (Ok tt, state_abc_then_a)) as Hrun1
    by (vm_compute; reflexivity).
  assert (rebuild_database casefold_ascii catalog_a state_abc_then_a
          = (Ok tt, (rebuild_database casefold_ascii catalog_a state_abc_then_a).2))
    as Hrun2
    by (vm_compute; reflexivity).
  split; [exact Hrun1|]. split; [exact Hrun2|].
  exact (proj1 (proj2 (rebuild_deterministic casefold_ascii catalog_a
                         _ _ _ _ Hrun1 Hrun2))).
Defined.

(** C8.  Identifiers are pairs.  After a completed rebuild a pair
    [(entry, variant)] is in the answer to a query exactly when some query
    word is a prefix of a folded word of a tag of that very variant.  For
    entry X with variants 0 (tagged "special item") and 1 (tagged
    "plain item"), the query "special" returns (X, 0) alone, while "item"
    returns both pairs. *)
Theorem variants_are_distinct :
  (∀ (casefold : string → string) (items : list Item) (s s' : State)
     (text : string) (found : gset EntryId) (x : EntryId),
     rebuild_database casefold items s = (Ok tt, s') →
     last_call (type_text text s').2 = Some (Some found) →
     x ∈ found ↔
     ∃ item tag word token,
       item ∈ items ∧ x = (id item, x.2) ∧ x.2 ∈ visual_subtypes item
       ∧ tag ∈ yielded (get_tags item x.2) ∧ word ∈ split tag
       ∧ token ∈ split text ∧ String.prefix token (casefold word) = true)
  ∧ last_call (session catalog_variants "special").2 = Some (Some {[("X", 0)]})
  ∧ last_call (session catalog_variants "item").2
    = Some (Some {[("X", 0); ("X", 1)]}).
Proof.
  split; [|vm_compute; split; reflexivity].
  intros casefold items s s' text found x Hrun Hlast.
  destruct (rebuild_completed casefold items s s' Hrun)
    as (Hok & Hd & Hm & _ & _ & c & _ & Hc').
  destruct (type_text_calls text s' c Hc') as [_ Hcalls].
  rewrite (last_call_snoc _ _ _ Hcalls), Hd, Hm in Hlast.
  unfold evaluate in Hlast. destruct (split text) as [|t ts] eqn:Hsplit; [done|].
  injection Hlast as <-.
  rewrite built_query_iff by (by apply scan_ok).
  split.
  - intros (token & w & Htoken & Hp & item & tag & word & ? & ? & ? & ? & ? & ->).
    exists item, tag, word, token. done.
  - intros (item & tag & word & token & ? & ? & ? & ? & ? & ? & ?).
    exists token, (casefold word). split; [done|]. split; [done|].
    exists item, tag, word. done.
Qed.

Lemma variants_are_distinct_witness :
  rebuild_database casefold_ascii catalog_variants (init quiet initial).2
  = (Ok tt, state_variants)
  ∧ last_call (type_text "special" state_variants).2 = Some (Some {[("X", 0)]})
  ∧ ("X", 1) ∉ ({[("X", 0)]} : gset EntryId).
Proof.
  assert (rebuild_database casefold_ascii catalog_variants (init quiet initial).2
          = (Ok tt, state_variants)) as Hrun
    by (vm_compute; reflexivity).
  assert (last_call (type_text "special" state_variants).2
          = Some (Some {[("X", 0)]})) as Hlast
    by (vm_compute; reflexivity).
  split; [exact Hrun|]. split; [exact Hlast|].
  intros Hin.
  apply (proj1 variants_are_distinct casefold_ascii catalog_variants _ _
           "special" _ ("X", 1) Hrun Hlast) in Hin
    as (item & tag & word & token & Hitem & Hx & _ & Htag & Hword & Htoken & Hp).
  apply list_elem_of_In in Hitem. destruct Hitem as [<-|[]].
  apply list_elem_of_In in Htag. destruct Htag as [<-|[]].
  apply list_elem_of_In in Htoken. destruct Htoken as [<-|[]].
  apply list_elem_of_In in Hword.
  destruct Hword as [<-|[<-|[]]]; vm_compute in Hp; discriminate Hp.
Defined.

(** Reading [word_to_ids[name]] is not harmless in general: on an index
    whose trie knows a word the dictionary lacks, the lookup inserts it. *)
Example lookup_of_unmapped_word_inserts :
  word_to_ids (find_ids ["re"] (set_database (Trie.Trie ["red"]) initial)).2
  = {["red" := ∅]}.
Proof. vm_compute. reflexivity. Qed.

(** C9.  On the index a completed rebuild leaves, the lookup loops of
    [on_type] return without changing the state at all: every name the
    trie yields is a key of [word_to_ids], so no key is inserted.  Hence,
    however often the search bar is edited afterwards, [database] and
    [word_to_ids] stay as built, and a text gets the same answer each time
    it is asked. *)
Theorem query_leaves_index_unchanged
    (casefold : string → string) (items : list Item) (s s' : State) :
  rebuild_database casefold items s = (Ok tt, s') →
  (∀ words, ∃ found, find_ids words s' = (Ok found, s'))
  ∧ ∀ s'', typed_from s' s'' →
      database s'' = database s'
      ∧ word_to_ids s'' = word_to_ids s'
      ∧ ∀ text, last_call (type_text text s'').2 = last_call (type_text text s').2.
Proof.
  intros Hrun.
  destruct (rebuild_completed casefold items s s' Hrun)
    as (_ & Hd & Hm & _ & _ & c & _ & Hc').
  assert (consistent (database s') (word_to_ids s')) as Hcons
    by (rewrite Hd, Hm; apply built_consistent).
  split.
  - intros words. rewrite find_ids_run. eexists. f_equal.
    destruct Hcons as [Hkeys _].
    rewrite touch_consistent by (by rewrite Hkeys).
    apply set_word_to_ids_id.
  - intros s'' Ht.
    destruct (typed_from_index s' s'' c Hc' Hcons Ht) as (Hd'' & Hm'' & Hc'' & _).
    split; [done|]. split; [done|]. intros text.
    destruct (type_text_calls text s' c Hc') as [_ H1].
    destruct (type_text_calls text s'' c Hc'') as [_ H2].
    rewrite (last_call_snoc _ _ _ H1), (last_call_snoc _ _ _ H2).
    by rewrite Hd'', Hm''.
Qed.

Lemma query_leaves_index_unchanged_witness :
  rebuild_database casefold_ascii catalog_a state_abc_red = (Ok tt, state_abc_then_a)
  ∧ ∃ found, find_ids ["do"; "x"] state_abc_then_a = (Ok found, state_abc_then_a).
Proof.
  assert (rebuild_database casefold_ascii catalog_a state_abc_red
          = (Ok tt, state_abc_then_a)) as Hrun
    by (vm_compute; reflexivity).
  split; [exact Hrun|].
  exact (proj1 (query_leaves_index_unchanged casefold_ascii catalog_a
                  state_abc_red state_abc_then_a Hrun) ["do"; "x"]).
Defined.

(** C10.  [rebuild_database] ends with [_type_cback()].  While the slot is
    still [None], as it is until [init] has run, a rebuild cannot complete:
    it raises, and when the catalog itself is sound it raises the
    [TypeError] of calling [None], after having rebuilt both structures.
    Once [init] has stored a callback that returns, a rebuild from a sound
    catalog completes. *)
Theorem rebuild_before_init_raises :
  _type_cback initial = None
  ∧ (∀ (casefold : string → string) (items : list Item) (s : State),
       _type_cback s = None →
       ∃ e s', rebuild_database casefold items s = (Raise e, s')
               ∧ (catalog_ok items = true →
                  e = TypeError
                  ∧ database s' = built_trie casefold items
                  ∧ word_to_ids s' = built_map casefold items))
  ∧ (∀ (casefold : string → string) (items : list Item) (s s' : State),
       rebuild_database casefold items s = (Ok tt, s') → is_Some (_type_cback s))
  ∧ (∀ (casefold : string → string) (items : list Item) cb (s : State),
       catalog_ok items = true →
       (∀ arg, cb arg = Ok tt) →
       ∃ s', (init cb ;; rebuild_database casefold items) s = (Ok tt, s')).
Proof.
  split; [done|]. split; [|split].
  - intros casefold items s Hnone.
    pose proof (rebuild_run casefold items s) as H. simpl in H.
    rewrite Hnone in H.
    destruct (scan casefold items).2 as [e|] eqn:Hscan.
    + eexists _, _. split; [exact H|]. intros Hok.
      apply (scan_ok casefold) in Hok. congruence.
    + eexists _, _. split; [exact H|]. done.
  - intros casefold items s s' Hrun.
    destruct (rebuild_completed casefold items s s' Hrun)
      as (_ & _ & _ & _ & _ & c & -> & _). eauto.
  - intros casefold items cb s Hok Hcb.
    pose proof (rebuild_run casefold items (init cb s).2) as H. simpl in H.
    apply (scan_ok casefold) in Hok. rewrite Hok in H.
    destruct H as (s' & Hrun & _). exists s'.
    unfold bind at 1. unfold init at 1, bind, modify. simpl.
    unfold init, bind, modify in Hrun. simpl in Hrun.
    rewrite Hrun. by rewrite Hcb.
Qed.

Lemma rebuild_before_init_raises_witness :
  _type_cback initial = None
  ∧ ∃ e s', rebuild_database casefold_ascii catalog_abc initial = (Raise e, s')
            ∧ e = TypeError.
Proof.
  split; [reflexivity|].
  destruct (proj1 (proj2 rebuild_before_init_raises)
              casefold_ascii catalog_abc initial eq_refl)
    as (e & s' & Hrun & Hok).
  exists e, s'. split; [exact Hrun|].
  exact (proj1 (Hok eq_refl)).
Defined.

(** * Further properties of [item_search] *)

(** ** The search bar's selection *)

(** What one run of [on_type] leaves as the selection. *)
Lemma on_type_selection (c : on_type_closure) (s : State) :
  selection (widgets (on_type c s).2)
  = match split (search_var (widgets s)),
          refresh_cback c (evaluate (database s) (word_to_ids s) (search_var (widgets s)))
    with
    | _ :: _, Ok _ => selection (widgets s)
    | _, _ => None
    end.
Proof.
  unfold on_type, evaluate. unfold bind at 1. unfold get at 1.
  destruct (split (search_var (widgets s))) as [|w ws] eqn:Hsplit.
  - unfold call_refresh, bind, modify. simpl.
    by destruct (refresh_cback c None) as [[]|e].
  - unfold bind at 1. rewrite find_ids_run.
    unfold bind at 1. unfold get at 1.
    unfold call_refresh, bind, modify, ret, raise. simpl.
    destruct (refresh_cback c _) as [[]|e]; [|done].
    by destruct (selection (widgets s)) as [[a b]|].
Qed.

(** X1.  [on_type] saves the selection before it calls the callback and
    puts it back afterwards: when the search text has at least one word
    and the callback returns, the selection after [on_type] is the one
    before it, although the callback dropped it in between. *)
Theorem on_type_restores_selection
    (c : on_type_closure) (s : State) (found : gset EntryId) :
  evaluate (database s) (word_to_ids s) (search_var (widgets s)) = Some found →
  refresh_cback c (Some found) = Ok tt →
  (on_type c s).1 = Ok tt
  ∧ last_call (on_type c s).2 = Some (Some found)
  ∧ selection (widgets (on_type c s).2) = selection (widgets s).
Proof.
  intros Heval Hcb.
  pose proof (on_type_selection c s) as Hsel.
  destruct (on_type_run c s) as (s' & Hrun & Hcalls & _).
  simpl in Hrun, Hcalls. rewrite Heval in Hsel, Hrun, Hcalls. rewrite Hcb in Hsel, Hrun.
  rewrite Hrun in *. simpl in *.
  split; [done|]. split; [by apply (last_call_snoc s)|].
  unfold evaluate in Heval.
  by destruct (split (search_var (widgets s))).
Qed.

Lemma on_type_restores_selection_witness :
  evaluate (database state_selected) (word_to_ids state_selected)
           (search_var (widgets state_selected))
  = Some {[("A", 0); ("C", 0)]}
  ∧ quiet (Some {[("A", 0); ("C", 0)]}) = Ok tt
  ∧ selection (widgets (on_type (Closure quiet) state_selected).2) = Some (1, 3).
Proof.
  assert (evaluate (database state_selected) (word_to_ids state_selected)
                   (search_var (widgets state_selected))
          = Some {[("A", 0); ("C", 0)]}) as Heval
    by (vm_compute; reflexivity).
  split; [exact Heval|]. split; [reflexivity|].
  exact (proj2 (proj2 (on_type_restores_selection (Closure quiet) state_selected
                         _ Heval eq_refl))).
Defined.

(** X2.  The save and restore sits after the early return and is skipped
    by an exception: when the search text has no word, or when the
    callback raises, [on_type] leaves the search bar without a selection,
    whatever was selected before. *)
Theorem on_type_drops_selection (c : on_type_closure) (s : State) :
  split (search_var (widgets s)) = []
  ∨ (∃ e, refresh_cback c
            (evaluate (database s) (word_to_ids s) (search_var (widgets s)))
          = Raise e) →
  selection (widgets (on_type c s).2) = None.
Proof.
  intros Hcase. rewrite on_type_selection.
  destruct Hcase as [-> | [e ->]]; [done|].
  by destruct (split (search_var (widgets s))).
Qed.

Lemma on_type_drops_selection_witness :
  split (search_var (widgets state_selected_blank)) = []
  ∧ selection (widgets state_selected_blank) = Some (0, 2)
  ∧ selection (widgets (on_type (Closure quiet) state_selected_blank).2) = None.
Proof.
  split; [reflexivity|]. split; [reflexivity|].
  apply on_type_drops_selection. left. reflexivity.
Defined.

(** X3.  A rebuild that completes leaves the search text alone; it leaves
    the selection alone too when the text has a word, and drops it when
    the text is blank. *)
Theorem rebuild_keeps_text_and_selection
    (casefold : string → string) (items : list Item) (s s' : State) :
  rebuild_database casefold items s = (Ok tt, s') →
  search_var (widgets s') = search_var (widgets s)
  ∧ selection (widgets s')
    = match split (search_var (widgets s)) with
      | [] => None
      | _ :: _ => selection (widgets s)
      end.
Proof.
  intros Hrun.
  destruct (rebuild_completed casefold items s s' Hrun)
    as (Hok & _ & _ & Htext & _ & c & Hc & _).
  split; [done|].
  rewrite rebuild_ok_run in Hrun by (by apply scan_ok).
  unfold call_type_cback, bind, get in Hrun. simpl in Hrun. rewrite Hc in Hrun.
  pose proof (on_type_selection c
    (set_database (built_trie casefold items)
       (set_word_to_ids (built_map casefold items) s))) as Hsel.
  destruct (on_type_run c
    (set_database (built_trie casefold items)
       (set_word_to_ids (built_map casefold items) s))) as (s1 & Hrun1 & _).
  rewrite Hrun in Hrun1, Hsel. injection Hrun1 as Hcb _.
  simpl in Hsel, Hcb. rewrite <- Hcb in Hsel. rewrite Hsel.
  by destruct (split (search_var (widgets s))).
Qed.

Lemma rebuild_keeps_text_and_selection_witness :
  rebuild_database casefold_ascii catalog_a state_selected
  = (Ok tt, (rebuild_database casefold_ascii catalog_a state_selected).2)
  ∧ selection (widgets (rebuild_database casefold_ascii catalog_a state_selected).2)
    = Some (1, 3).
Proof.
  assert (rebuild_database casefold_ascii catalog_a state_selected
          = (Ok tt, (rebuild_database casefold_ascii catalog_a state_selected).2))
    as Hrun by (vm_compute; reflexivity).
  split; [exact Hrun|].
  exact (proj2 (rebuild_keeps_text_and_selection casefold_ascii catalog_a _ _ Hrun)).
Defined.

(** ** A callback that raises, and a callback registered anew *)

(** X4.  When the catalog walk completes but the callback raises, the
    rebuild raises the callback's exception after both structures have been
    replaced: the new index is in place, consistent, recorded as handed to
    the callback once, and it is the one later edits of the search bar are
    answered from. *)
Theorem rebuild_callback_error
    (casefold : string → string) (items : list Item) (s : State)
    (c : on_type_closure) (e : exn) :
  catalog_ok items = true →
  _type_cback s = Some c →
  refresh_cback c (evaluate (built_trie casefold items) (built_map casefold items)
                            (search_var (widgets s))) = Raise e →
  ∃ s', rebuild_database casefold items s = (Raise e, s')
        ∧ consistent (database s') (word_to_ids s')
        ∧ (∀ x, (∃ w, x ∈ entries_for (word_to_ids s') w) ↔ ∃ w, tagged casefold items w x)
        ∧ length (calls s') = S (length (calls s))
        ∧ ∀ s'' text, typed_from s' s'' →
            last_call (type_text text s'').2
            = Some (evaluate (built_trie casefold items) (built_map casefold items) text).
Proof.
  intros Hok Hc Hcb.
  pose proof (rebuild_run casefold items s) as H. simpl in H.
  pose proof Hok as Hscan. apply (scan_ok casefold) in Hscan.
  rewrite Hscan, Hc, Hcb in H.
  destruct H as (s' & Hrun & Hcalls & Hd & Hm & Hc' & _).
  exists s'. split; [done|].
  assert (consistent (database s') (word_to_ids s')) as Hcons
    by (rewrite Hd, Hm; apply built_consistent).
  split; [done|]. split; [|split].
  - intros x. rewrite Hm. split; intros [w Hw]; exists w.
    + by apply scan_sound, entries_for_built.
    + by apply entries_for_built, scan_complete.
  - rewrite Hcalls, length_app. simpl. lia.
  - intros s'' text Ht.
    destruct (typed_from_index s' s'' c Hc' Hcons Ht) as (Hd'' & Hm'' & Hc'' & _).
    destruct (type_text_calls text s'' c Hc'') as [_ Hcalls''].
    rewrite (last_call_snoc _ _ _ Hcalls''). by rewrite Hd'', Hm'', Hd, Hm.
Qed.

Lemma rebuild_callback_error_witness :
  catalog_ok catalog_abc = true
  ∧ _type_cback (init failing initial).2 = Some (Closure failing)
  ∧ ∃ s', rebuild_database casefold_ascii catalog_abc (init failing initial).2
          = (Raise (CallbackError "refresh"), s')
          ∧ consistent (database s') (word_to_ids s').
Proof.
  split; [reflexivity|]. split; [reflexivity|].
  destruct (rebuild_callback_error casefold_ascii catalog_abc (init failing initial).2
              (Closure failing) (CallbackError "refresh") eq_refl eq_refl eq_refl)
    as (s' & Hrun & Hcons & _).
  exists s'. split; [exact Hrun | exact Hcons].
Defined.

(** X5.  [init] stores its callback over whatever was stored before and
    starts with an empty search box.  So the first rebuild after an [init],
    whatever was registered or typed earlier, hands [None] to the newly
    registered callback, and its outcome is that callback's. *)
Theorem rebuild_after_init
    (casefold : string → string) (items : list Item)
    (cb : option (gset EntryId) → outcome unit) (s : State) :
  catalog_ok items = true →
  ∃ s', rebuild_database casefold items (init cb s).2 = (cb None, s')
        ∧ calls s' = calls s ++ [None]
        ∧ _type_cback s' = Some (Closure cb).
Proof.
  intros Hok.
  pose proof (rebuild_run casefold items (init cb s).2) as H. simpl in H.
  apply (scan_ok casefold) in Hok. rewrite Hok in H.
  destruct H as (s' & Hrun & Hcalls & _ & _ & Hc' & _).
  exists s'. split; [|split; done].
  unfold init, bind, modify in *. simpl in *. exact Hrun.
Qed.

Lemma rebuild_after_init_witness :
  catalog_ok catalog_abc = true
  ∧ ∃ s', rebuild_database casefold_ascii catalog_abc (init failing state_abc_red).2
          = (Raise (CallbackError "refresh"), s')
          ∧ calls s' = calls state_abc_red ++ [None].
Proof.
  split; [reflexivity|].
  destruct (rebuild_after_init casefold_ascii catalog_abc failing state_abc_red eq_refl)
    as (s' & Hrun & Hcalls & _).
  exists s'. split; [exact Hrun | exact Hcalls].
Defined.

(** ** What the index depends on *)

Lemma map_eq_entries (m1 m2 : gmap string (gset EntryId)) :
  dom m1 = dom m2 →
  (∀ w x, x ∈ entries_for m1 w ↔ x ∈ entries_for m2 w) →
  m1 = m2.
Proof.
  intros Hdom Hent. apply map_eq. intros w.
  specialize (Hent w). unfold entries_for in Hent.
  destruct (m1 !! w) as [a|] eqn:H1, (m2 !! w) as [b|] eqn:H2; simpl in Hent.
  - f_equal. by apply set_eq.
  - apply not_elem_of_dom in H2. rewrite <- Hdom in H2.
    by apply not_elem_of_dom in H2; congruence.
  - apply not_elem_of_dom in H1. rewrite Hdom in H1.
    by apply not_elem_of_dom in H1; congruence.
  - done.
Qed.

Lemma record_all_ext (ps ps' : list (string * EntryId)) :
  (∀ p, p ∈ ps ↔ p ∈ ps') → record_all ∅ ps = record_all ∅ ps'.
Proof.
  intros Hext. apply map_eq_entries.
  - rewrite !dom_record_all. f_equal. apply set_eq. intros w.
    rewrite !elem_of_list_to_set, !list_elem_of_fmap.
    split; intros (p & -> & Hp); exists p; (split; [done|]); by apply Hext.
  - intros w x. rewrite !entries_for_record_all. by rewrite Hext.
Qed.

Section Dependence.

Variable casefold : string → string.

(** Two catalogs whose walks complete and that tag the same variants with
    the same words give the same dictionary and the same trie. *)
Lemma built_map_ext (items items' : list Item) :
  catalog_ok items = true → catalog_ok items' = true →
  (∀ w x, tagged casefold items w x ↔ tagged casefold items' w x) →
  built_map casefold items = built_map casefold items'
  ∧ built_trie casefold items = built_trie casefold items'.
Proof.
  intros Hok Hok' Hext.
  apply (scan_ok casefold) in Hok, Hok'.
  assert (built_map casefold items = built_map casefold items') as Hm.
  { apply record_all_ext. intros [w x]. split; intros Hin.
    - by apply scan_complete, Hext, scan_sound.
    - by apply scan_complete, Hext, scan_sound. }
  split; [done|]. unfold built_trie. by rewrite Hm.
Qed.

Lemma rebuild_ext (items items' : list Item) (s : State) :
  catalog_ok items = true → catalog_ok items' = true →
  (∀ w x, tagged casefold items w x ↔ tagged casefold items' w x) →
  rebuild_database casefold items' s = rebuild_database casefold items s.
Proof.
  intros Hok Hok' Hext.
  destruct (built_map_ext items items' Hok Hok' Hext) as [Hm Hd].
  rewrite !rebuild_ok_run by (by apply scan_ok). by rewrite Hm, Hd.
Qed.

Lemma catalog_ok_Permutation (items items' : list Item) :
  items ≡ₚ items' → catalog_ok items = catalog_ok items'.
Proof.
  intros Hp. unfold catalog_ok.
  induction Hp as [|item l l' _ IH|a b l|l1 l2 l3 _ IH1 _ IH2]; simpl.
  - done.
  - by rewrite IH.
  - rewrite !andb_assoc. f_equal. apply andb_comm.
  - congruence.
Qed.

Lemma tagged_Permutation (items items' : list Item) (w : string) (x : EntryId) :
  items ≡ₚ items' → tagged casefold items w x ↔ tagged casefold items' w x.
Proof.
  intros Hp. unfold tagged.
  split; intros (item & tag & word & Hitem & H); exists item, tag, word;
    (split; [|done]); [by rewrite <- Hp | by rewrite Hp].
Qed.

End Dependence.

(** X6.  The index does not depend on the order in which the catalog
    hands out its entries: when no tag iterator raises, a rebuild from a
    reordered catalog runs exactly as the rebuild from the original, down
    to the resulting state and outcome. *)
Theorem rebuild_ignores_catalog_order
    (casefold : string → string) (items items' : list Item) (s : State) :
  items ≡ₚ items' →
  catalog_ok items = true →
  rebuild_database casefold items' s = rebuild_database casefold items s.
Proof.
  intros Hp Hok. apply rebuild_ext; [done| |].
  - by rewrite <- (catalog_ok_Permutation items items').
  - intros w x. by apply tagged_Permutation.
Qed.

Lemma rebuild_ignores_catalog_order_witness :
  catalog_abc ≡ₚ reverse catalog_abc
  ∧ catalog_ok catalog_abc = true
  ∧ rebuild_database casefold_ascii (reverse catalog_abc) state_a_red
    = rebuild_database casefold_ascii catalog_abc state_a_red.
Proof.
  assert (catalog_abc ≡ₚ reverse catalog_abc) as Hp
    by (symmetry; apply reverse_Permutation).
  split; [exact Hp|]. split; [reflexivity|].
  exact (rebuild_ignores_catalog_order casefold_ascii _ _ state_a_red Hp eq_refl).
Defined.

Lemma silent_not_tagged (casefold : string → string) (item : Item)
    (v : Z) (tag word : string) :
  silent item = true → v ∈ visual_subtypes item →
  tag ∈ yielded (get_tags item v) → word ∈ split tag → False.
Proof.
  unfold silent. intros Hs Hv Htag Hword.
  rewrite forallb_forall in Hs. apply list_elem_of_In in Hv.
  specialize (Hs v Hv). destruct (failure (get_tags item v)); [done|].
  rewrite forallb_forall in Hs. apply list_elem_of_In in Htag.
  specialize (Hs tag Htag). apply bool_decide_eq_true in Hs.
  rewrite Hs in Hword. by apply elem_of_nil in Hword.
Qed.

(** X7.  An entry without subtypes, without tags, or with blank tags only
    is tolerated and contributes nothing: wherever it stands in the
    catalog, the rebuild runs exactly as if the entry were not there. *)
Theorem rebuild_skips_silent_entry
    (casefold : string → string) (before after : list Item) (item : Item)
    (s : State) :
  silent item = true →
  catalog_ok (before ++ after) = true →
  rebuild_database casefold (before ++ item :: after) s
  = rebuild_database casefold (before ++ after) s.
Proof.
  intros Hs Hok. apply rebuild_ext; [done| |].
  - unfold catalog_ok in *. rewrite forallb_app in *. simpl.
    apply andb_true_iff in Hok as [-> ->]. simpl.
    rewrite andb_true_r. unfold silent in Hs.
    rewrite forallb_forall in Hs |- *. intros v Hv. specialize (Hs v Hv).
    by destruct (failure (get_tags item v)).
  - intros w x. unfold tagged. split.
    + intros (it & tag & word & Hit & Hrest).
      exists it, tag, word. split; [|done].
      rewrite elem_of_app in Hit |- *. rewrite elem_of_cons. tauto.
    + intros (it & tag & word & Hit & Hx & Hv & Htag & Hword & Hw).
      rewrite elem_of_app, elem_of_cons in Hit.
      destruct Hit as [Hit|[->|Hit]].
      * exists it, tag, word. rewrite elem_of_app. tauto.
      * destruct (silent_not_tagged casefold item x.2 tag word); done.
      * exists it, tag, word. rewrite elem_of_app. tauto.
Qed.

Lemma rebuild_skips_silent_entry_witness :
  silent item_blank = true
  ∧ catalog_ok ([] ++ catalog_abc) = true
  ∧ rebuild_database casefold_ascii ([] ++ item_blank :: catalog_abc) state_a_red
    = rebuild_database casefold_ascii ([] ++ catalog_abc) state_a_red.
Proof.
  split; [reflexivity|]. split; [reflexivity|].
  exact (rebuild_skips_silent_entry casefold_ascii [] catalog_abc item_blank
           state_a_red eq_refl eq_refl).
Defined.

(** ** How answers compose *)

Lemma split_from_app_space (cur t1 t2 : string) (c : ascii) :
  isspace c = true →
  split_from cur (t1 +:+ String c t2) = split_from cur t1 ++ split t2.
Proof.
  intros Hc. revert cur. induction t1 as [|a t1 IH]; intros cur.
  - change (EmptyString +:+ String c t2) with (String c t2).
    simpl. by rewrite Hc.
  - change (String a t1 +:+ String c t2) with (String a (t1 +:+ String c t2)).
    simpl. destruct (isspace a).
    + by rewrite IH, app_assoc.
    + apply IH.
Qed.

Lemma split_app_space (t1 t2 : string) :
  split (t1 +:+ " " +:+ t2) = split t1 ++ split t2.
Proof. unfold split at 1. by apply split_from_app_space. Qed.

Lemma found_for_app d m (ws1 ws2 : list string) :
  found_for d m (ws1 ++ ws2) = found_for d m ws1 ∪ found_for d m ws2.
Proof. unfold found_for. by rewrite fmap_app, union_list_app_L. Qed.

(** X8.  Query words are OR-ed: for any index, the answer to two texts
    joined by a space is the union of the answers to each, when each has a
    word of its own. *)
Theorem query_words_are_ored
    (c : on_type_closure) (s : State) (t1 t2 : string) (f1 f2 : gset EntryId) :
  _type_cback s = Some c →
  last_call (type_text t1 s).2 = Some (Some f1) →
  last_call (type_text t2 s).2 = Some (Some f2) →
  last_call (type_text (t1 +:+ " " +:+ t2) s).2 = Some (Some (f1 ∪ f2)).
Proof.
  intros Hc H1 H2.
  destruct (type_text_calls t1 s c Hc) as [_ Hc1].
  destruct (type_text_calls t2 s c Hc) as [_ Hc2].
  destruct (type_text_calls (t1 +:+ " " +:+ t2) s c Hc) as [_ Hc12].
  rewrite (last_call_snoc _ _ _ Hc1) in H1.
  rewrite (last_call_snoc _ _ _ Hc2) in H2.
  rewrite (last_call_snoc _ _ _ Hc12).
  unfold evaluate in *. rewrite split_app_space.
  destruct (split t1) as [|w1 ws1]; [done|].
  destruct (split t2) as [|w2 ws2]; [done|].
  injection H1 as <-. injection H2 as <-.
  change ((w1 :: ws1) ++ w2 :: ws2) with (w1 :: (ws1 ++ w2 :: ws2)).
  do 2 f_equal. apply (found_for_app _ _ (w1 :: ws1) (w2 :: ws2)).
Qed.

Lemma query_words_are_ored_witness :
  _type_cback state_abc_red = Some (Closure quiet)
  ∧ last_call (type_text "blu" state_abc_red).2 = Some (Some {[("B", 0)]})
  ∧ last_call (type_text "wal" state_abc_red).2 = Some (Some {[("C", 0)]})
  ∧ last_call (type_text ("blu" +:+ " " +:+ "wal") state_abc_red).2
    = Some (Some ({[("B", 0)]} ∪ {[("C", 0)]})).
Proof.
  assert (last_call (type_text "blu" state_abc_red).2 = Some (Some {[("B", 0)]}))
    as H1 by (vm_compute; reflexivity).
  assert (last_call (type_text "wal" state_abc_red).2 = Some (Some {[("C", 0)]}))
    as H2 by (vm_compute; reflexivity).
  split; [reflexivity|]. split; [exact H1|]. split; [exact H2|].
  exact (query_words_are_ored (Closure quiet) state_abc_red "blu" "wal" _ _
           eq_refl H1 H2).
Defined.

Lemma prefix_trans (p q n : string) :
  String.prefix p q = true → String.prefix q n = true → String.prefix p n = true.
Proof.
  revert p q. induction n as [|c n IH]; intros p q Hpq Hqn.
  - destruct q; [|done]. by destruct p.
  - destruct p as [|a p]; [done|]. destruct q as [|b q]; [done|].
    simpl in *. destruct (ascii_dec a b) as [->|]; [|done].
    destruct (ascii_dec b c) as [->|]; [|done]. by apply (IH p q).
Qed.

Lemma matches_narrow d m (w w' : string) :
  String.prefix w w' = true → matches d m w' ⊆ matches d m w.
Proof.
  intros Hp x. rewrite !elem_of_matches. intros (name & ? & Hp' & ?).
  exists name. split; [done|]. split; [|done]. by apply (prefix_trans w w').
Qed.

(** X9.  Typing on narrows: for any index, when every word of a query is
    lengthened (or kept), the new answer is a subset of the old one. *)
Theorem longer_words_narrow
    (c : on_type_closure) (s : State) (text text' : string) (f f' : gset EntryId) :
  _type_cback s = Some c →
  Forall2 (λ w w', String.prefix w w' = true) (split text) (split text') →
  last_call (type_text text s).2 = Some (Some f) →
  last_call (type_text text' s).2 = Some (Some f') →
  f' ⊆ f.
Proof.
  intros Hc Hall H1 H2.
  destruct (type_text_calls text s c Hc) as [_ Hc1].
  destruct (type_text_calls text' s c Hc) as [_ Hc2].
  rewrite (last_call_snoc _ _ _ Hc1) in H1.
  rewrite (last_call_snoc _ _ _ Hc2) in H2.
  unfold evaluate in *.
  assert (found_for (database s) (word_to_ids s) (split text')
          ⊆ found_for (database s) (word_to_ids s) (split text)) as Hsub.
  { clear H1 H2 Hc1 Hc2. unfold found_for.
    induction Hall as [|w w' ws ws' Hp _ IH]; [done|]. simpl.
    apply union_mono; [by apply matches_narrow | exact IH]. }
  destruct (split text); [done|]. destruct (split text'); [done|].
  injection H1 as <-. injection H2 as <-. exact Hsub.
Qed.

Lemma longer_words_narrow_witness :
  _type_cback state_abc_red = Some (Closure quiet)
  ∧ Forall2 (λ w w', String.prefix w w' = true) (split "re do") (split "red doo")
  ∧ last_call (type_text "re do" state_abc_red).2
    = Some (Some {[("A", 0); ("B", 0); ("C", 0)]})
  ∧ last_call (type_text "red doo" state_abc_red).2
    = Some (Some {[("A", 0); ("B", 0); ("C", 0)]})
  ∧ ({[("A", 0); ("B", 0); ("C", 0)]} : gset EntryId)
    ⊆ {[("A", 0); ("B", 0); ("C", 0)]}.
Proof.
  assert (Forall2 (λ w w', String.prefix w w' = true) (split "re do") (split "red doo"))
    as Hall by (repeat constructor).
  assert (last_call (type_text "re do" state_abc_red).2
          = Some (Some {[("A", 0); ("B", 0); ("C", 0)]})) as H1
    by (vm_compute; reflexivity).
  assert (last_call (type_text "red doo" state_abc_red).2
          = Some (Some {[("A", 0); ("B", 0); ("C", 0)]})) as H2
    by (vm_compute; reflexivity).
  split; [reflexivity|]. split; [exact Hall|]. split; [exact H1|]. split; [exact H2|].
  exact (longer_words_narrow (Closure quiet) state_abc_red _ _ _ _ eq_refl Hall H1 H2).
Defined.

(** * Properties of the style pane *)

Section PaneFacts.

Import StyleVarPane.

Variable Style : Type.
Variable getint : string → option Z.
Variable styleOptions : list (StyleVar Style).

(** ** [load_handler] *)

Lemma last_value_cons (prop : string * string) (props : list (string * string))
    (name : string) :
  last_value (prop :: props) name
  = match last_value props name with
    | Some v => Some v
    | None => if decide (prop.1 = name) then Some prop.2 else None
    end.
Proof.
  unfold last_value. simpl. destruct (decide (prop.1 = name)); simpl.
  - by rewrite last_cons.
  - by destruct (last _).
Qed.

Lemma load_props_run (props : list (string * string)) (p : Pane Style) :
  let p' := foldl load_prop p props in
  (∀ name, tk_vars p' !! name
           = match tk_vars p !! name with
             | Some old => Some (default old (last_value props name))
             | None => None
             end)
  ∧ warnings p'
    = warnings p ++ List.filter (λ n, bool_decide (tk_vars p !! n = None)) props.*1
  ∧ VAR_LIST p' = VAR_LIST p ∧ checkbox_chosen p' = checkbox_chosen p
  ∧ checkbox_other p' = checkbox_other p ∧ UI p' = UI p
  ∧ _load_cback p' = _load_cback p ∧ load_calls p' = load_calls p.
Proof.
  revert p. induction props as [|prop props IH]; intros p; simpl.
  - split; [|by rewrite app_nil_r].
    intros name. by destruct (tk_vars p !! name).
  - destruct (IH (load_prop p prop)) as (Htk & Hw & Hrest). clear IH.
    unfold load_prop in *.
    destruct (tk_vars p !! prop.1) as [cur|] eqn:Hcur; simpl in *.
    + split; [|split].
      * intros name. rewrite Htk, last_value_cons.
        destruct (decide (prop.1 = name)) as [<-|Hne].
        -- rewrite lookup_insert_eq, Hcur. by destruct (last_value props prop.1).
        -- rewrite lookup_insert_ne by done.
           destruct (tk_vars p !! name); [|done]. by destruct (last_value props name).
      * rewrite Hw. f_equal.
        apply filter_ext_in. intros n _.
        destruct (decide (prop.1 = n)) as [<-|Hne].
        -- rewrite lookup_insert_eq, Hcur.
           by rewrite !bool_decide_eq_false_2.
        -- by rewrite lookup_insert_ne.
      * exact Hrest.
    + split; [|split].
      * intros name. rewrite Htk, last_value_cons.
        destruct (decide (prop.1 = name)) as [<-|Hne].
        -- by rewrite Hcur.
        -- destruct (tk_vars p !! name); [|done]. by destruct (last_value props name).
      * rewrite Hw. simpl. by rewrite <- app_assoc.
      * exact Hrest.
Qed.

(** X10.  Loading a configuration neither creates nor removes a variable:
    a name without a variable is passed over, and a variable ends with the
    value of the last property that names it, or with the value it had
    when none does. *)
Theorem load_handler_values
    (props : list (string * string)) (p : Pane Style) (name : string) :
  tk_vars (load_handler props p).2 !! name
  = match tk_vars p !! name with
    | Some old => Some (default old (last_value props name))
    | None => None
    end.
Proof.
  destruct (load_props_run props p) as (Htk & _ & _ & _ & _ & _ & Hcb & _).
  unfold load_handler. simpl in *.
  destruct (_load_cback (foldl load_prop p props)); simpl; apply Htk.
Qed.

(** X11.  [load_handler] never raises a [KeyError] of its own: every
    property whose name has no variable is logged, in order, and the loop
    goes on.  Afterwards the registered callback, if any, is called exactly
    once, and the outcome is the callback's.  Checkboxes and labels are
    not touched. *)
Theorem load_handler_warns_and_calls (props : list (string * string)) (p : Pane Style) :
  let r := load_handler props p in
  warnings r.2
  = warnings p ++ List.filter (λ n, bool_decide (tk_vars p !! n = None)) props.*1
  ∧ r.1 = default (Done tt) (_load_cback p)
  ∧ load_calls r.2
    = (load_calls p + match _load_cback p with Some _ => 1 | None => 0 end)%nat
  ∧ checkbox_chosen r.2 = checkbox_chosen p
  ∧ checkbox_other r.2 = checkbox_other p
  ∧ UI r.2 = UI p.
Proof.
  destruct (load_props_run props p) as (_ & Hw & _ & Hc & Ho & HU & Hcb & Hn).
  unfold load_handler. simpl in *. rewrite Hcb.
  destruct (_load_cback p); simpl; rewrite Hw, Hc, Ho, HU, Hn;
    repeat split; lia.
Qed.

(** X12.  Loading, then asking: after [load_handler], mandatory items
    count as unlocked exactly when the variable "UnlockDefault" existed
    beforehand and its new value (the last one loaded for it, else the old
    one) is a number other than 0.  A value loaded before the variable
    exists is lost. *)
Theorem load_then_mandatory_unlocked (props : list (string * string)) (p : Pane Style) :
  mandatory_unlocked getint (load_handler props p).2
  = match tk_vars p !! "UnlockDefault" with
    | Some old =>
        match getint (default old (last_value props "UnlockDefault")) with
        | Some n => Done (negb (n =? 0))
        | None => TclError "UnlockDefault"
        end
    | None => Done false
    end.
Proof.
  unfold mandatory_unlocked. rewrite load_handler_values.
  by destruct (tk_vars p !! "UnlockDefault").
Qed.

(** ** [export_data] *)

Lemma export_from_done (vars : list (StyleVar Style)) (st : Style) (p : Pane Style)
    (acc d : gmap string bool) :
  export_from getint vars st p acc = Done d →
  (∀ var, var ∈ vars → applies_to_style var st = true →
          ∃ b, d !! id var = Some b ∧ reads getint p (id var) b)
  ∧ (∀ k b, d !! k = Some b →
            acc !! k = Some b
            ∨ (reads getint p k b
               ∧ ∃ var, var ∈ vars ∧ applies_to_style var st = true ∧ id var = k))
  ∧ (∀ k b, acc !! k = Some b → ∃ b', d !! k = Some b' ∧ (b' = b ∨ reads getint p k b')).
Proof.
  revert acc. induction vars as [|var vars IH]; intros acc Hrun; simpl in Hrun.
  - injection Hrun as <-. split; [|split].
    + intros var Hin. by apply elem_of_nil in Hin.
    + auto.
    + eauto.
  - destruct (applies_to_style var st) eqn:Happ.
    + destruct (tk_vars p !! id var) as [v|] eqn:Hv; [|done].
      destruct (getint v) as [n|] eqn:Hn; [|done].
      destruct (IH _ Hrun) as (Hin & Hsrc & Hkeep). clear IH.
      assert (reads getint p (id var) (n =? 1)) as Hreads by (exists v, n; done).
      split; [|split].
      * intros var' Hvar' Happ'. apply elem_of_cons in Hvar' as [->|Hvar']; [|eauto].
        destruct (Hkeep (id var) (n =? 1)) as (b' & Hb' & Hor);
          [by rewrite lookup_insert_eq|].
        exists b'. split; [done|]. by destruct Hor as [->|].
      * intros k b Hk. destruct (Hsrc k b Hk) as [Hacc|(Hr & var' & ? & ? & ?)].
        -- destruct (decide (id var = k)) as [<-|Hne].
           ++ rewrite lookup_insert_eq in Hacc. injection Hacc as <-.
              right. split; [done|]. exists var. split; [left|done].
           ++ rewrite lookup_insert_ne in Hacc by done. by left.
        -- right. split; [done|]. exists var'. split; [by right|done].
      * intros k b Hk. destruct (decide (id var = k)) as [<-|Hne].
        -- destruct (Hkeep (id var) (n =? 1)) as (b' & Hb' & Hor);
             [by rewrite lookup_insert_eq|].
           exists b'. split; [done|]. right. by destruct Hor as [->|].
        -- apply Hkeep. by rewrite lookup_insert_ne.
    + destruct (IH _ Hrun) as (Hin & Hsrc & Hkeep). clear IH.
      split; [|split].
      * intros var' Hvar' Happ'. apply elem_of_cons in Hvar' as [->|Hvar']; [|eauto].
        congruence.
      * intros k b Hk. destruct (Hsrc k b Hk) as [Hacc|(Hr & var' & ? & ? & ?)];
          [by left|].
        right. split; [done|]. exists var'. split; [by right|done].
      * exact Hkeep.
Qed.

Lemma export_from_completes (vars : list (StyleVar Style)) (st : Style) (p : Pane Style)
    (acc : gmap string bool) :
  (∀ var, var ∈ vars → applies_to_style var st = true →
          ∃ v n, tk_vars p !! id var = Some v ∧ getint v = Some n) →
  ∃ d, export_from getint vars st p acc = Done d.
Proof.
  revert acc. induction vars as [|var vars IH]; intros acc Hall; simpl; [eauto|].
  destruct (applies_to_style var st) eqn:Happ.
  - destruct (Hall var) as (v & n & -> & ->); [left|done|].
    apply IH. intros var' Hin. apply Hall. by right.
  - apply IH. intros var' Hin. apply Hall. by right.
Qed.

Lemma export_from_error (vars : list (StyleVar Style)) (st : Style) (p : Pane Style)
    (acc : gmap string bool) (k : string) :
  (export_from getint vars st p acc = KeyError k →
   tk_vars p !! k = None
   ∧ ∃ var, var ∈ vars ∧ applies_to_style var st = true ∧ id var = k)
  ∧ (export_from getint vars st p acc = TclError k →
     (∃ v, tk_vars p !! k = Some v ∧ getint v = None)
     ∧ ∃ var, var ∈ vars ∧ applies_to_style var st = true ∧ id var = k).
Proof.
  revert acc. induction vars as [|var vars IH]; intros acc; simpl; [done|].
  assert (∀ P : StyleVar Style → Prop,
            (∃ var', var' ∈ vars ∧ P var') → ∃ var', var' ∈ var :: vars ∧ P var')
    as Hlater.
  { intros P (var' & ? & ?). exists var'. split; [by right|done]. }
  destruct (applies_to_style var st) eqn:Happ.
  - destruct (tk_vars p !! id var) as [v|] eqn:Hv.
    + destruct (getint v) as [n|] eqn:Hn.
      * destruct (IH (<[id var := n =? 1]> acc)) as [IH1 IH2].
        split; intros Hrun.
        -- destruct (IH1 Hrun) as [? ?]. split; [done|]. by apply Hlater.
        -- destruct (IH2 Hrun) as [? ?]. split; [done|]. by apply Hlater.
      * split; [done|]. intros [= <-]. split; [eauto|].
        exists var. split; [left|done].
    + split; [|done]. intros [= <-]. split; [done|].
      exists var. split; [left|done].
  - destruct (IH acc) as [IH1 IH2]. split; intros Hrun.
    + destruct (IH1 Hrun) as [? ?]. split; [done|]. by apply Hlater.
    + destruct (IH2 Hrun) as [? ?]. split; [done|]. by apply Hlater.
Qed.

Lemma elem_of_exported (st : Style) (p : Pane Style) (var : StyleVar Style) :
  var ∈ exported styleOptions st p
  ↔ var ∈ VAR_LIST p ++ styleOptions ∧ applies_to_style var st = true.
Proof.
  unfold exported. by rewrite list_elem_of_In, filter_In, <- list_elem_of_In.
Qed.

(** X13.  When [export_data] returns, the dictionary has exactly the ids
    of the variables, from [VAR_LIST] and [styleOptions], that apply to
    the chosen style, and each maps to whether its [IntVar] reads 1. *)
Theorem export_data_contents (st : Style) (p : Pane Style) (d : gmap string bool) :
  export_data getint styleOptions st p = Done d →
  ∀ k, (k ∈ id <$> exported styleOptions st p → ∃ b, d !! k = Some b ∧ reads getint p k b)
       ∧ (k ∉ id <$> exported styleOptions st p → d !! k = None).
Proof.
  unfold export_data. intros Hrun k.
  destruct (export_from_done _ _ _ _ _ Hrun) as (Hin & Hsrc & _).
  split.
  - intros Hk. apply list_elem_of_fmap in Hk as (var & -> & Hvar).
    apply elem_of_exported in Hvar as [? ?]. by apply Hin.
  - intros Hk. destruct (d !! k) as [b|] eqn:Hd; [|done].
    destruct (Hsrc k b Hd) as [Hacc|(_ & var & ? & ? & <-)]; [by rewrite lookup_empty in Hacc|].
    destruct Hk. apply list_elem_of_fmap. exists var. split; [done|].
    by apply elem_of_exported.
Qed.

(** X14.  [export_data] returns exactly when every variable that applies
    to the chosen style has an [IntVar] holding a number; variables that
    do not apply are never looked up.  Otherwise it raises for an applying
    variable: [KeyError] when the variable has no [IntVar]. *)
Theorem export_data_completes (st : Style) (p : Pane Style) :
  ((∃ d, export_data getint styleOptions st p = Done d)
   ↔ ∀ var, var ∈ exported styleOptions st p →
            ∃ v n, tk_vars p !! id var = Some v ∧ getint v = Some n)
  ∧ ∀ k, export_data getint styleOptions st p = KeyError k →
         tk_vars p !! k = None ∧ k ∈ id <$> exported styleOptions st p.
Proof.
  unfold export_data. split; [split|].
  - intros [d Hrun] var Hvar. apply elem_of_exported in Hvar as [Hin Happ].
    destruct (export_from_done _ _ _ _ _ Hrun) as (Hall & _).
    destruct (Hall var Hin Happ) as (b & _ & v & n & ? & ? & _). eauto.
  - intros Hall. apply export_from_completes. intros var Hin Happ.
    apply Hall. by apply elem_of_exported.
  - intros k Hrun.
    destruct (export_from_error (VAR_LIST p ++ styleOptions) st p ∅ k) as [Herr _].
    destruct (Herr Hrun) as (Hnone & var & ? & ? & <-). split; [done|].
    apply list_elem_of_fmap. exists var. split; [done|]. by apply elem_of_exported.
Qed.

(** X15.  The exported flag and [mandatory_unlocked] read the same
    variable differently, one as "is 1", the other as "is not 0": when
    "UnlockDefault" is exported as [b] and its [IntVar] reads [n], the pane
    reports unlocked as [n ≠ 0], and the two agree exactly when [n] is 0
    or 1. *)
Theorem exported_unlock_agrees (st : Style) (p : Pane Style)
    (d : gmap string bool) (b : bool) :
  export_data getint styleOptions st p = Done d →
  d !! "UnlockDefault" = Some b →
  ∃ n u, mandatory_unlocked getint p = Done u
         ∧ b = (n =? 1) ∧ u = negb (n =? 0)
         ∧ (b = u ↔ n = 0 ∨ n = 1).
Proof.
  intros Hrun Hb.
  destruct (export_from_done _ _ _ _ _ Hrun) as (_ & Hsrc & _).
  destruct (Hsrc _ _ Hb) as [Hacc|((v & n & Hv & Hn & ->) & _)];
    [by rewrite lookup_empty in Hacc|].
  exists n, (negb (n =? 0)). unfold mandatory_unlocked. rewrite Hv, Hn.
  split; [done|]. split; [done|]. split; [done|].
  destruct (Z.eqb_spec n 1), (Z.eqb_spec n 0); simpl; split; intros H; try lia; try done.
Qed.

(** ** [refresh] *)

Lemma present_tail (var : StyleVar Style) (vars : list (StyleVar Style))
    (cc co : gmap string (option nat)) (g g' : option nat) :
  present (var :: vars) cc co →
  present vars (<[id var := g]> cc) (<[id var := g']> co).
Proof.
  intros H var' Hin Hst. destruct (H var') as [Hc Ho]; [by right|done|].
  split.
  - destruct (decide (id var = id var')) as [->|Hne];
      [rewrite lookup_insert_eq; eauto | by rewrite lookup_insert_ne].
  - destruct (decide (id var = id var')) as [->|Hne];
      [rewrite lookup_insert_eq; eauto | by rewrite lookup_insert_ne].
Qed.

Lemma set_rows_id (p : Pane Style) :
  set_other (checkbox_other p) (set_chosen (checkbox_chosen p) p) = p.
Proof. by destruct p. Qed.

Lemma refresh_from_run (vars : list (StyleVar Style)) (st : Style)
    (en dis : nat) (p : Pane Style) :
  present vars (checkbox_chosen p) (checkbox_other p) →
  refresh_from vars st en dis p
  = (Done ((en + length (shown st vars))%nat, (dis + length (hidden st vars))%nat),
     set_other (rows_other vars st dis (checkbox_other p))
       (set_chosen (rows_chosen vars st en (checkbox_chosen p)) p)).
Proof.
  revert en dis p. induction vars as [|var vars IH]; intros en dis p Hpres.
  - simpl. rewrite set_rows_id. do 3 f_equal; lia.
  - simpl. unfold styled. destruct (applies_to_all var) eqn:Hall; simpl.
    + apply IH. intros var' Hin. apply Hpres. by right.
    + destruct (Hpres var) as [[gc Hc] [go Ho]]; [left | by unfold styled; rewrite Hall |].
      unfold grid_chosen. rewrite Hc.
      destruct (applies_to_style var st) eqn:Happ; simpl;
        unfold grid_other; simpl; rewrite Ho; simpl;
        rewrite IH by (simpl; by eapply present_tail);
        simpl; do 3 f_equal; lia.
Qed.

Lemma rows_chosen_untouched (vars : list (StyleVar Style)) st en m (k : string) :
  (∀ var, var ∈ vars → styled var = true → id var ≠ k) →
  rows_chosen vars st en m !! k = m !! k.
Proof.
  revert en m. induction vars as [|var vars IH]; intros en m Hk; simpl; [done|].
  assert (∀ var', var' ∈ vars → styled var' = true → id var' ≠ k) as Hrest
    by (intros var' Hin; apply Hk; by right).
  destruct (applies_to_all var) eqn:Hall; [by apply IH|].
  assert (id var ≠ k) as Hne by (apply Hk; [left | by unfold styled; rewrite Hall]).
  destruct (applies_to_style var st); rewrite IH by done; by rewrite lookup_insert_ne.
Qed.

Lemma rows_other_untouched (vars : list (StyleVar Style)) st dis m (k : string) :
  (∀ var, var ∈ vars → styled var = true → id var ≠ k) →
  rows_other vars st dis m !! k = m !! k.
Proof.
  revert dis m. induction vars as [|var vars IH]; intros dis m Hk; simpl; [done|].
  assert (∀ var', var' ∈ vars → styled var' = true → id var' ≠ k) as Hrest
    by (intros var' Hin; apply Hk; by right).
  destruct (applies_to_all var) eqn:Hall; [by apply IH|].
  assert (id var ≠ k) as Hne by (apply Hk; [left | by unfold styled; rewrite Hall]).
  destruct (applies_to_style var st); rewrite IH by done; by rewrite lookup_insert_ne.
Qed.

Lemma styled_ids_later (var : StyleVar Style) (vars : list (StyleVar Style)) :
  styled var = true →
  NoDup (id <$> List.filter styled (var :: vars)) →
  NoDup (id <$> List.filter styled vars)
  ∧ ∀ var', var' ∈ vars → styled var' = true → id var' ≠ id var.
Proof.
  intros Hst. simpl. rewrite Hst. simpl. intros Hnd.
  apply NoDup_cons in Hnd as [Hnin Hnd]. split; [done|].
  intros var' Hin Hst' Heq. apply Hnin. rewrite <- Heq.
  apply list_elem_of_fmap. exists var'. split; [done|].
  apply list_elem_of_In, filter_In. split; [by apply list_elem_of_In | done].
Qed.

Lemma rows_at (vars : list (StyleVar Style)) st en dis mc mo (i : nat)
    (var : StyleVar Style) :
  NoDup (id <$> List.filter styled vars) →
  vars !! i = Some var → styled var = true →
  rows_chosen vars st en mc !! id var
  = Some (if applies_to_style var st
          then Some (en + length (shown st (take i vars)))%nat else None)
  ∧ rows_other vars st dis mo !! id var
    = Some (if applies_to_style var st
            then None else Some (dis + length (hidden st (take i vars)))%nat).
Proof.
  revert i en dis mc mo. induction vars as [|u vars IH]; intros i en dis mc mo Hnd Hi Hst;
    [done|].
  destruct i as [|i]; simpl in Hi.
  - injection Hi as ->. destruct (styled_ids_later var vars Hst Hnd) as [_ Hlater].
    simpl. unfold styled in Hst. destruct (applies_to_all var); [done|].
    destruct (applies_to_style var st);
      rewrite rows_chosen_untouched, rows_other_untouched by done;
      rewrite !lookup_insert_eq; split; do 2 f_equal; lia.
  - simpl. unfold styled at 1 2. destruct (applies_to_all u) eqn:Hall; simpl.
    + apply IH; [|done|done]. simpl in Hnd. unfold styled at 1 in Hnd.
      by rewrite Hall in Hnd.
    + assert (styled u = true) as Hu by (unfold styled; by rewrite Hall).
      destruct (styled_ids_later u vars Hu Hnd) as [Hnd' _].
      destruct (applies_to_style u st) eqn:Happ; simpl;
        destruct (IH i (S en) dis (<[id u := Some en]> mc) (<[id u := None]> mo)
                    Hnd' Hi Hst) as [Hc1 Ho1];
        destruct (IH i en (S dis) (<[id u := None]> mc) (<[id u := Some dis]> mo)
                    Hnd' Hi Hst) as [Hc2 Ho2];
        destruct (IH i en dis (<[id u := None]> mc) (<[id u := None]> mo)
                    Hnd' Hi Hst) as [Hc3 Ho3].
      * rewrite Hc1, Ho3. split; destruct (applies_to_style var st); do 2 f_equal; lia.
      * rewrite Hc3, Ho2. split; destruct (applies_to_style var st); do 2 f_equal; lia.
Qed.

Lemma rows_chosen_agree (vars : list (StyleVar Style)) st en
    (m m' : gmap string (option nat)) :
  (∀ k, (∀ var, var ∈ vars → styled var = true → id var ≠ k) → m !! k = m' !! k) →
  rows_chosen vars st en m = rows_chosen vars st en m'.
Proof.
  revert en m m'. induction vars as [|var vars IH]; intros en m m' Hagree; simpl.
  - apply map_eq. intros k. apply Hagree. intros var Hin. by apply elem_of_nil in Hin.
  - destruct (applies_to_all var) eqn:Hall.
    + apply IH. intros k Hk. apply Hagree. intros var' Hin Hst.
      apply elem_of_cons in Hin as [->|Hin]; [|by apply Hk].
      unfold styled in Hst. by rewrite Hall in Hst.
    + assert (∀ g k, (∀ var', var' ∈ vars → styled var' = true → id var' ≠ k) →
                     <[id var := g]> m !! k = <[id var := g]> m' !! k) as Hins.
      { intros g k Hk. destruct (decide (id var = k)) as [<-|Hne].
        - by rewrite !lookup_insert_eq.
        - rewrite !lookup_insert_ne by done. apply Hagree. intros var' Hin Hst.
          apply elem_of_cons in Hin as [->|Hin]; [done | by apply Hk]. }
      destruct (applies_to_style var st); apply IH; apply Hins.
Qed.

Lemma rows_other_agree (vars : list (StyleVar Style)) st dis
    (m m' : gmap string (option nat)) :
  (∀ k, (∀ var, var ∈ vars → styled var = true → id var ≠ k) → m !! k = m' !! k) →
  rows_other vars st dis m = rows_other vars st dis m'.
Proof.
  revert dis m m'. induction vars as [|var vars IH]; intros dis m m' Hagree; simpl.
  - apply map_eq. intros k. apply Hagree. intros var Hin. by apply elem_of_nil in Hin.
  - destruct (applies_to_all var) eqn:Hall.
    + apply IH. intros k Hk. apply Hagree. intros var' Hin Hst.
      apply elem_of_cons in Hin as [->|Hin]; [|by apply Hk].
      unfold styled in Hst. by rewrite Hall in Hst.
    + assert (∀ g k, (∀ var', var' ∈ vars → styled var' = true → id var' ≠ k) →
                     <[id var := g]> m !! k = <[id var := g]> m' !! k) as Hins.
      { intros g k Hk. destruct (decide (id var = k)) as [<-|Hne].
        - by rewrite !lookup_insert_eq.
        - rewrite !lookup_insert_ne by done. apply Hagree. intros var' Hin Hst.
          apply elem_of_cons in Hin as [->|Hin]; [done | by apply Hk]. }
      destruct (applies_to_style var st); apply IH; apply Hins.
Qed.

(** The whole of [refresh] on a pane that is laid out. *)
Lemma refresh_run (st : Style) (p : Pane Style) :
  laid_out p →
  refresh st p
  = (Done tt,
     set_UI (<["stylevar_other_none" := (length (hidden st (VAR_LIST p)) =? 0)%nat]>
              (<["stylevar_chosen_none" := (length (shown st (VAR_LIST p)) =? 0)%nat]>
                 (UI p)))
       (set_other (rows_other (VAR_LIST p) st 0 (checkbox_other p))
          (set_chosen (rows_chosen (VAR_LIST p) st 0 (checkbox_chosen p)) p))).
Proof.
  intros ([c Hc] & [o Ho] & Hpres). unfold refresh.
  rewrite refresh_from_run by exact Hpres. simpl.
  unfold grid_UI. simpl. rewrite Hc. simpl.
  rewrite lookup_insert_ne by done. rewrite Ho. done.
Qed.

(** X16.  On a pane that is laid out and whose styled variables have
    distinct ids, [refresh] completes and every styled variable ends in
    exactly one frame: in "Selected Style" when it applies to the style,
    else in "Other Styles", removed from the other frame.  Its row is the
    number of styled variables before it in [VAR_LIST] that went to the
    same frame, so each frame is filled from row 0 without gap or clash. *)
Theorem refresh_places (st : Style) (p : Pane Style) :
  laid_out p →
  NoDup (id <$> List.filter styled (VAR_LIST p)) →
  ∃ p', refresh st p = (Done tt, p')
        ∧ ∀ i var, VAR_LIST p !! i = Some var → styled var = true →
            checkbox_chosen p' !! id var
            = Some (if applies_to_style var st
                    then Some (length (shown st (take i (VAR_LIST p)))) else None)
            ∧ checkbox_other p' !! id var
              = Some (if applies_to_style var st
                      then None else Some (length (hidden st (take i (VAR_LIST p))))).
Proof.
  intros Hlaid Hnd. rewrite refresh_run by done. eexists. split; [done|].
  intros i var Hi Hst. simpl.
  apply (rows_at (VAR_LIST p) st 0 0 (checkbox_chosen p) (checkbox_other p) i var);
    done.
Qed.

(** X17.  On a pane that is laid out, [refresh] shows the "No Options!"
    label exactly when no styled variable applies to the style, and the
    "None!" label exactly when every styled variable does; it leaves the
    variables' values, the list of variables, the other labels and the
    checkboxes of every other id as they were. *)
Theorem refresh_labels (st : Style) (p : Pane Style) :
  laid_out p →
  ∃ p', refresh st p = (Done tt, p')
        ∧ UI p' !! "stylevar_chosen_none"
          = Some (match shown st (VAR_LIST p) with [] => true | _ => false end)
        ∧ UI p' !! "stylevar_other_none"
          = Some (match hidden st (VAR_LIST p) with [] => true | _ => false end)
        ∧ (∀ k, k ≠ "stylevar_chosen_none" → k ≠ "stylevar_other_none" →
                UI p' !! k = UI p !! k)
        ∧ (∀ k, (∀ var, var ∈ VAR_LIST p → styled var = true → id var ≠ k) →
                checkbox_chosen p' !! k = checkbox_chosen p !! k
                ∧ checkbox_other p' !! k = checkbox_other p !! k)
        ∧ tk_vars p' = tk_vars p ∧ VAR_LIST p' = VAR_LIST p.
Proof.
  intros Hlaid. rewrite refresh_run by done. eexists. split; [done|]. simpl.
  split; [|split; [|split; [|split]]].
  - rewrite lookup_insert_ne by done. rewrite lookup_insert_eq.
    by destruct (shown st (VAR_LIST p)).
  - rewrite lookup_insert_eq. by destruct (hidden st (VAR_LIST p)).
  - intros k H1 H2. by rewrite !lookup_insert_ne.
  - intros k Hk. by rewrite rows_chosen_untouched, rows_other_untouched.
  - done.
Qed.

Lemma refresh_from_error (all vars : list (StyleVar Style)) (st : Style)
    (en dis : nat) (p : Pane Style) :
  (∀ u, u ∈ vars → u ∈ all) →
  (∃ var, var ∈ vars ∧ styled var = true
          ∧ (checkbox_chosen p !! id var = None ∨ checkbox_other p !! id var = None)) →
  ∃ k p', refresh_from vars st en dis p = (KeyError k, p')
          ∧ UI p' = UI p
          ∧ ∃ var, var ∈ all ∧ styled var = true ∧ id var = k.
Proof.
  revert en dis p.
  induction vars as [|var vars IH]; intros en dis p Hsub (bad & Hin & Hst & Hmiss).
  { by apply elem_of_nil in Hin. }
  assert (∀ u, u ∈ vars → u ∈ all) as Hsub' by (intros u Hu; apply Hsub; by right).
  assert (var ∈ all) as Hvar_all by (apply Hsub; left).
  simpl. destruct (applies_to_all var) eqn:Hall.
  - apply IH; [done|]. exists bad. split; [|done].
    apply elem_of_cons in Hin as [->|Hin]; [|done].
    unfold styled in Hst. by rewrite Hall in Hst.
  - assert (styled var = true) as Hvar by (unfold styled; by rewrite Hall).
    assert (∃ u, u ∈ all ∧ styled u = true ∧ id u = id var) as Hhere
      by (by exists var).
    unfold grid_chosen.
    destruct (checkbox_chosen p !! id var) as [gc|] eqn:Hc;
      [|destruct (applies_to_style var st); simpl; by eexists _, _].
    assert (checkbox_other p !! id var = None
            ∨ ∃ go, checkbox_other p !! id var = Some go
                    ∧ bad ∈ vars ∧ id var ≠ id bad) as [Ho|(go & Ho & Hin' & Hne)].
    { destruct (checkbox_other p !! id var) as [go|] eqn:Ho; [|by left].
      right. exists go. split; [done|].
      assert (id var ≠ id bad) as Hne.
      { intros Heq. rewrite Heq in Hc, Ho. destruct Hmiss; congruence. }
      split; [|done]. apply elem_of_cons in Hin as [->|Hin]; [done|done]. }
    + destruct (applies_to_style var st); simpl; unfold grid_other; simpl;
        rewrite Ho; simpl; by eexists _, _.
    + assert (∀ g g' en' dis',
        ∃ k p', refresh_from vars st en' dis'
                  (set_other (<[id var := g']> (checkbox_other p))
                     (set_chosen (<[id var := g]> (checkbox_chosen p)) p))
                = (KeyError k, p')
                ∧ UI p' = UI p
                ∧ ∃ u, u ∈ all ∧ styled u = true ∧ id u = k) as Hgo.
      { intros g g' en' dis'.
        destruct (IH en' dis'
                    (set_other (<[id var := g']> (checkbox_other p))
                       (set_chosen (<[id var := g]> (checkbox_chosen p)) p)))
          as (k & p' & Hrun & HU & Hsrc); [done| |].
        - exists bad. split; [done|]. split; [done|]. simpl.
          by rewrite !lookup_insert_ne.
        - exists k, p'. split; [done|]. split; [exact HU | exact Hsrc]. }
      destruct (applies_to_style var st); simpl; unfold grid_other; simpl;
        rewrite Ho; simpl; apply Hgo.
Qed.

(** X18.  When some styled variable of [VAR_LIST] lacks one of its two
    checkboxes, [refresh] raises the [KeyError] of a styled variable's id
    and stops there: the two labels are left as they were. *)
Theorem refresh_key_error (st : Style) (p : Pane Style) :
  (∃ var, var ∈ VAR_LIST p ∧ styled var = true
          ∧ (checkbox_chosen p !! id var = None ∨ checkbox_other p !! id var = None)) →
  ∃ k p', refresh st p = (KeyError k, p')
          ∧ UI p' = UI p
          ∧ k ∈ id <$> List.filter styled (VAR_LIST p).
Proof.
  intros Hbad.
  destruct (refresh_from_error (VAR_LIST p) (VAR_LIST p) st 0 0 p (λ _ H, H) Hbad)
    as (k & p' & Hrun & HU & var & Hin & Hst & <-).
  exists (id var), p'. unfold refresh. rewrite Hrun. simpl.
  split; [done|]. split; [done|].
  apply list_elem_of_fmap. exists var. split; [done|].
  apply list_elem_of_In, filter_In. split; [by apply list_elem_of_In | done].
Qed.

Lemma rows_keep_some (vars : list (StyleVar Style)) (st : Style) (en dis : nat)
    (mc mo : gmap string (option nat)) (k : string) :
  is_Some (mc !! k) → is_Some (mo !! k) →
  is_Some (rows_chosen vars st en mc !! k) ∧ is_Some (rows_other vars st dis mo !! k).
Proof.
  revert en dis mc mo. induction vars as [|w vars IH]; intros en dis mc mo H1 H2; [done|].
  simpl. destruct (applies_to_all w); [by apply IH|].
  destruct (applies_to_style w st); apply IH;
    (destruct (decide (id w = k)) as [->|];
     [rewrite lookup_insert_eq; eauto | by rewrite lookup_insert_ne]).
Qed.

Lemma refresh_keeps_laid_out (st : Style) (p : Pane Style) :
  laid_out p →
  laid_out (refresh st p).2
  ∧ VAR_LIST (refresh st p).2 = VAR_LIST p.
Proof.
  intros Hlaid. pose proof Hlaid as ([c Hc] & [o Ho] & Hpres).
  rewrite refresh_run by done. unfold laid_out. simpl. split; [|done].
  split; [|split].
  - rewrite lookup_insert_ne by done. rewrite lookup_insert_eq. eauto.
  - rewrite lookup_insert_eq. eauto.
  - intros var Hin Hst. simpl. destruct (Hpres var Hin Hst) as [? ?].
    by apply rows_keep_some.
Qed.

(** X19.  Where the checkboxes and labels end up depends on the style
    handed to the last [refresh] only, not on the styles shown before: on
    a pane that is laid out, refreshing for one style and then for another
    gives the same pane as refreshing for the second at once.  In
    particular a second [refresh] for the same style changes nothing. *)
Theorem refresh_forgets_history (st1 st2 : Style) (p : Pane Style) :
  laid_out p →
  refresh st2 (refresh st1 p).2 = refresh st2 p.
Proof.
  intros Hlaid. destruct (refresh_keeps_laid_out st1 p Hlaid) as [Hlaid1 HV].
  rewrite (refresh_run st2 _ Hlaid1), (refresh_run st2 p Hlaid), HV.
  rewrite (refresh_run st1 p Hlaid). unfold set_UI, set_other, set_chosen. simpl.
  f_equal. f_equal.
  - apply rows_chosen_agree. intros k Hk. by apply rows_chosen_untouched.
  - apply rows_other_agree. intros k Hk. by apply rows_other_untouched.
  - apply map_eq. intros k.
    destruct (decide (k = "stylevar_other_none")) as [->|Ho].
    { rewrite !lookup_insert_eq. done. }
    rewrite !(lookup_insert_ne _ "stylevar_other_none") by done.
    destruct (decide (k = "stylevar_chosen_none")) as [->|Hc].
    { rewrite !lookup_insert_eq. done. }
    rewrite !(lookup_insert_ne _ "stylevar_chosen_none") by done.
    rewrite !lookup_insert_ne by done. done.
Qed.

End PaneFacts.

Lemma pane_abcd_laid_out : StyleVarPane.laid_out StyleVarPane.pane_abcd.
Proof.
  split; [by eexists|]. split; [by eexists|].
  intros var Hin Hst. apply list_elem_of_In in Hin.
  destruct Hin as [<-|[<-|[<-|[<-|[]]]]]; try done; split; by eexists.
Qed.

Lemma load_then_mandatory_unlocked_witness :
  StyleVarPane.mandatory_unlocked StyleVarPane.getint_bit
    (StyleVarPane.load_handler [("UnlockDefault", "1"); ("Missing", "1")]
       StyleVarPane.pane_abcd).2
  = StyleVarPane.Done true.
Proof.
  rewrite (load_then_mandatory_unlocked nat StyleVarPane.getint_bit). reflexivity.
Defined.

Lemma export_data_contents_witness :
  ∃ d, StyleVarPane.export_data StyleVarPane.getint_bit [StyleVarPane.var_unlock]
         1%nat StyleVarPane.pane_abcd = StyleVarPane.Done d
       ∧ d !! "D" = None
       ∧ ∃ b, d !! "A" = Some b
              ∧ StyleVarPane.reads StyleVarPane.getint_bit StyleVarPane.pane_abcd "A" b.
Proof.
  destruct (StyleVarPane.export_data StyleVarPane.getint_bit [StyleVarPane.var_unlock]
              1%nat StyleVarPane.pane_abcd) as [d| |] eqn:Hrun;
    [|vm_compute in Hrun; discriminate Hrun..].
  exists d. split; [reflexivity|].
  pose proof (export_data_contents nat StyleVarPane.getint_bit
                [StyleVarPane.var_unlock] 1%nat StyleVarPane.pane_abcd d Hrun) as H.
  split.
  - apply (H "D"). vm_compute. intros Hin.
    repeat (apply elem_of_cons in Hin as [Hin|Hin]; [discriminate Hin|]).
    by apply elem_of_nil in Hin.
  - apply (H "A"). vm_compute. left.
Defined.

Lemma export_data_completes_witness :
  ∃ k, StyleVarPane.export_data StyleVarPane.getint_bit [StyleVarPane.var_unlock]
         1%nat StyleVarPane.pane_empty = StyleVarPane.KeyError k
       ∧ StyleVarPane.tk_vars StyleVarPane.pane_empty !! k = None.
Proof.
  exists "UnlockDefault". split; [reflexivity|].
  exact (proj1 (proj2 (export_data_completes nat StyleVarPane.getint_bit
                         [StyleVarPane.var_unlock] 1%nat StyleVarPane.pane_empty)
                  "UnlockDefault" eq_refl)).
Defined.

Lemma exported_unlock_agrees_witness :
  ∃ d, StyleVarPane.export_data StyleVarPane.getint_bit [StyleVarPane.var_unlock]
         1%nat StyleVarPane.pane_abcd = StyleVarPane.Done d
       ∧ d !! "UnlockDefault" = Some false
       ∧ ∃ n u, StyleVarPane.mandatory_unlocked StyleVarPane.getint_bit
                  StyleVarPane.pane_abcd = StyleVarPane.Done u
                ∧ (false = u ↔ n = 0 ∨ n = 1).
Proof.
  destruct (StyleVarPane.export_data StyleVarPane.getint_bit [StyleVarPane.var_unlock]
              1%nat StyleVarPane.pane_abcd) as [d| |] eqn:Hrun;
    [|vm_compute in Hrun; discriminate Hrun..].
  assert (d !! "UnlockDefault" = Some false) as Hd.
  { vm_compute in Hrun. injection Hrun as <-. vm_compute. reflexivity. }
  exists d. split; [reflexivity|]. split; [exact Hd|].
  destruct (exported_unlock_agrees nat StyleVarPane.getint_bit
              [StyleVarPane.var_unlock] 1%nat StyleVarPane.pane_abcd d false Hrun Hd)
    as (n & u & Hu & _ & _ & Hiff).
  exists n, u. split; [exact Hu | exact Hiff].
Defined.

Lemma refresh_places_witness :
  StyleVarPane.laid_out StyleVarPane.pane_abcd
  ∧ NoDup (StyleVarPane.id
             <$> List.filter StyleVarPane.styled
                   (StyleVarPane.VAR_LIST StyleVarPane.pane_abcd))
  ∧ ∃ p', StyleVarPane.refresh 1%nat StyleVarPane.pane_abcd = (StyleVarPane.Done tt, p')
          ∧ StyleVarPane.checkbox_chosen p' !! "B" = Some (Some 1%nat)
          ∧ StyleVarPane.checkbox_other p' !! "D" = Some (Some 0%nat).
Proof.
  assert (NoDup (StyleVarPane.id
                   <$> List.filter StyleVarPane.styled
                         (StyleVarPane.VAR_LIST StyleVarPane.pane_abcd))) as Hnd.
  { vm_compute. repeat (apply NoDup_cons; split;
      [intros Hin; repeat (apply elem_of_cons in Hin as [Hin|Hin]; [discriminate Hin|]);
       by apply elem_of_nil in Hin|]). apply NoDup_nil. done. }
  split; [exact pane_abcd_laid_out|]. split; [exact Hnd|].
  destruct (refresh_places nat 1%nat StyleVarPane.pane_abcd pane_abcd_laid_out Hnd)
    as (p' & Hrun & Hrows).
  exists p'. split; [exact Hrun|]. split.
  - exact (proj1 (Hrows 1%nat StyleVarPane.var_b eq_refl eq_refl)).
  - exact (proj2 (Hrows 3%nat StyleVarPane.var_d eq_refl eq_refl)).
Defined.

Lemma refresh_labels_witness :
  StyleVarPane.laid_out StyleVarPane.pane_abcd
  ∧ ∃ p', StyleVarPane.refresh 3%nat StyleVarPane.pane_abcd = (StyleVarPane.Done tt, p')
          ∧ StyleVarPane.UI p' !! "stylevar_chosen_none" = Some true
          ∧ StyleVarPane.UI p' !! "stylevar_other_none" = Some false.
Proof.
  split; [exact pane_abcd_laid_out|].
  destruct (refresh_labels nat 3%nat StyleVarPane.pane_abcd pane_abcd_laid_out)
    as (p' & Hrun & Hc & Ho & _).
  exists p'. split; [exact Hrun|]. split; [exact Hc | exact Ho].
Defined.

Lemma refresh_key_error_witness :
  ∃ k p', StyleVarPane.refresh 1%nat
            (StyleVarPane.set_other ∅ StyleVarPane.pane_abcd)
          = (StyleVarPane.KeyError k, p')
          ∧ StyleVarPane.UI p' = StyleVarPane.UI StyleVarPane.pane_abcd.
Proof.
  destruct (refresh_key_error nat 1%nat
              (StyleVarPane.set_other ∅ StyleVarPane.pane_abcd))
    as (k & p' & Hrun & HU & _).
  - exists StyleVarPane.var_a. split; [left|]. split; [reflexivity|]. right. reflexivity.
  - exists k, p'. split; [exact Hrun | exact HU].
Defined.

Lemma refresh_forgets_history_witness :
  StyleVarPane.laid_out StyleVarPane.pane_abcd
  ∧ StyleVarPane.refresh 2%nat (StyleVarPane.refresh 1%nat StyleVarPane.pane_abcd).2
    = StyleVarPane.refresh 2%nat StyleVarPane.pane_abcd.
Proof.
  split; [exact pane_abcd_laid_out|].
  exact (refresh_forgets_history nat 1%nat 2%nat StyleVarPane.pane_abcd
           pane_abcd_laid_out).
Defined.
(* END *)

